(** * MerpsClient: transaction submission, confirmation and failure diagnosis

    A shallow embedding of [src/client.ts].  The class [MerpsClient] talks to
    a ledger node through a [Connection]; every [await] is a point where the
    node (the environment) answers.  The embedding makes those answers
    explicit inputs and records every request in a trace, so that the
    control flow of [sendTransaction], [sendTransactions], [loadRootBanks]
    and their neighbours can be run and reasoned about. *)

From Stdlib Require Import ZArith Floats String Ascii DecimalString Lia.
From stdpp Require Import base list strings.

Set Warnings "-register-all,-notation-for-abbreviation".

Local Open Scope string_scope.
Local Open Scope list_scope.

(** ** JavaScript values that cross the RPC boundary

    Status errors, simulation errors and rejection values are JSON: the
    node's answer is handed to the client unvalidated.  Numbers are kept to
    the integers a double holds exactly, strings to byte strings.  An
    object is given by its members as the answer lists them. *)

Record safe_integer : Type := {
  integer : Z;
  integer_safe : (Z.abs integer <=? 9007199254740991)%Z = true
}.

Inductive json : Type :=
  | JNull
  | JBool (b : bool)
  | JNum (n : safe_integer)
  | JStr (s : string)
  | JArr (xs : list json)
  | JObj (fields : list (string * json)).

(** ToBoolean: what [if (v)] and [a && b] test. *)
Definition truthy (v : json) : bool :=
  match v with
  | JNull => false
  | JBool b => b
  | JNum n => negb (integer n =? 0)%Z
  | JStr s => negb (String.eqb s "")
  | JArr _ => true
  | JObj _ => true
  end.

(** *** The properties of an object built from a list of members

    Members are assigned in the order listed, a repeated key keeping its
    place and taking the later value.  Own properties are enumerated with
    the array indices first, in ascending order, then the other keys in
    the order of their creation. *)

(** [obj[k] = v] *)
Fixpoint set_member {A : Type} (k : string) (v : A) (fs : list (string * A))
  : list (string * A) :=
  match fs with
  | [] => [(k, v)]
  | (k', v') :: rest =>
      if String.eqb k k' then (k, v) :: rest else (k', v') :: set_member k v rest
  end.

Definition created {A : Type} (members : list (string * A)) : list (string * A) :=
  fold_left (fun obj kv => set_member (fst kv) (snd kv) obj) members [].

Definition digit_value (c : ascii) : option N :=
  let n := N_of_ascii c in
  if (48 <=? n)%N && (n <=? 57)%N then Some (n - 48)%N else None.

Fixpoint digits_value (s : string) (acc : N) : option N :=
  match s with
  | EmptyString => Some acc
  | String c rest =>
      match digit_value c with
      | Some d => digits_value rest (10 * acc + d)%N
      | None => None
      end
  end.

(** An array index: the canonical decimal form of an integer from 0 to
    2^32 - 2. *)
Definition array_index (k : string) : option N :=
  match k with
  | EmptyString => None
  | String c rest =>
      if Ascii.eqb c "0" && negb (String.eqb rest "") then None
      else match digits_value k 0 with
           | Some n => if (n <=? 4294967294)%N then Some n else None
           | None => None
           end
  end.

Fixpoint insert_index {A : Type} (n : N) (kv : string * A)
    (sorted : list (N * (string * A))) : list (N * (string * A)) :=
  match sorted with
  | [] => [(n, kv)]
  | (m, kv') :: rest =>
      if (n <? m)%N then (n, kv) :: sorted else (m, kv') :: insert_index n kv rest
  end.

Fixpoint indexed_first {A : Type} (fs : list (string * A))
  : list (N * (string * A)) * list (string * A) :=
  match fs with
  | [] => ([], [])
  | kv :: rest =>
      let (indexed, named) := indexed_first rest in
      match array_index (fst kv) with
      | Some n => (insert_index n kv indexed, named)
      | None => (indexed, kv :: named)
      end
  end.

Definition own_properties {A : Type} (members : list (string * A))
  : list (string * A) :=
  let (indexed, named) := indexed_first (created members) in
  List.map snd indexed ++ named.

Fixpoint assoc_get (k : string) (fs : list (string * json)) : option json :=
  match fs with
  | [] => None
  | (k', v) :: fs' => if String.eqb k k' then Some v else assoc_get k fs'
  end.

(** What the program can throw, or a promise can reject with. *)
Inductive thrown : Type :=
  | ErrorObj (message : string)      (* new Error(message) *)
  | TypeErrorObj (property : string) (* reading [property] of null *)
  | Value (v : json).                (* a value raised by a collaborator *)

Inductive completion (A : Type) : Type :=
  | Returned (a : A)
  | Thrown (e : thrown).
Arguments Returned {A} a.
Arguments Thrown {A} e.

(** [v.name]: null has no properties; a primitive or an array has no own
    property of the names used here, and reads as undefined. *)
Definition get_property (v : json) (name : string) : completion json :=
  match v with
  | JNull => Thrown (TypeErrorObj name)
  | JObj fs => Returned (default JNull (assoc_get name (own_properties fs)))
  | _ => Returned JNull
  end.

(** ** JSON.stringify on these values *)

Definition dquote : ascii := ascii_of_nat 34.
Definition backslash : ascii := ascii_of_nat 92.

Definition hex_digit (n : nat) : ascii :=
  if Nat.ltb n 10 then ascii_of_nat (48 + n) else ascii_of_nat (87 + n).

Definition escape_char (c : ascii) : string :=
  let n := nat_of_ascii c in
  if Nat.eqb n 34 then String backslash (String dquote "")
  else if Nat.eqb n 92 then String backslash (String backslash "")
  else if Nat.eqb n 8 then String backslash "b"
  else if Nat.eqb n 9 then String backslash "t"
  else if Nat.eqb n 10 then String backslash "n"
  else if Nat.eqb n 12 then String backslash "f"
  else if Nat.eqb n 13 then String backslash "r"
  else if Nat.ltb n 32 then
    String backslash
      ("u00" +:+ String (hex_digit (n / 16)) (String (hex_digit (n mod 16)) ""))
  else String c "".

Fixpoint escape_string (s : string) : string :=
  match s with
  | EmptyString => ""
  | String c s' => escape_char c +:+ escape_string s'
  end.

Definition quote_string (s : string) : string :=
  String dquote (escape_string s +:+ String dquote "").

Definition number_to_string (n : Z) : string :=
  NilZero.string_of_int (Z.to_int n).

Fixpoint join_comma (parts : list string) : string :=
  match parts with
  | [] => ""
  | [p] => p
  | p :: rest => p +:+ "," +:+ join_comma rest
  end.

Fixpoint JSON_stringify (v : json) : string :=
  match v with
  | JNull => "null"
  | JBool true => "true"
  | JBool false => "false"
  | JNum n => number_to_string (integer n)
  | JStr s => quote_string s
  | JArr xs => "[" +:+ join_comma (List.map JSON_stringify xs) +:+ "]"
  | JObj fs =>
      "{" +:+ join_comma
               (List.map (fun kv => quote_string (fst kv) +:+ ":" +:+ snd kv)
                  (own_properties
                     (List.map (fun kv => (fst kv, JSON_stringify (snd kv))) fs)))
          +:+ "}"
  end.

(** ** Data of the submission protocol *)

Definition TransactionSignature : Type := string.
Definition Blockhash : Type := string.
Definition RawTransaction : Type := string.
Definition TransactionConfirmationStatus : Type := string.

(** [SimulatedTransactionResponse]: [err] is null when the dry-run
    succeeded, [logs] may be null. *)
Record SimulatedTransactionResponse : Type := {
  err : json;
  logs : option (list string)
}.

(** The object [simulateTransaction] resolves to; its [value] may be
    missing. *)
Record RpcResponseAndContext : Type := {
  value : option SimulatedTransactionResponse
}.

(** How the awaited [simulateTransaction(...)] ends: it throws, or it
    resolves to an object (or to null). *)
Inductive simulate_outcome : Type :=
  | SimThrows (e : thrown)
  | SimResolves (r : option RpcResponseAndContext).

(** ** The failure diagnosis of [sendTransaction] (lines 118-141) *)

(** Lines 118-127: [simulateResult] stays null when the call throws, and
    also when reading [.value] of a null answer throws inside the [try]. *)
Definition simulateResult_of (o : simulate_outcome) : option SimulatedTransactionResponse :=
  match o with
  | SimThrows _ => None
  | SimResolves None => None
  | SimResolves (Some r) => value r
  end.

Definition program_log_marker : string := "Program log: ".

(** [line.slice(n)] *)
Fixpoint slice (n : nat) (line : string) : string :=
  match n, line with
  | O, _ => line
  | S n', String _ rest => slice n' rest
  | S _, EmptyString => EmptyString
  end.

Definition startsWith (line marker : string) : bool := String.prefix marker line.

(** Lines 130-137, [for (let i = logs.length - 1; i >= 0; --i)], with
    [n = i + 1] lines still to visit.  The result is the error thrown from
    inside the loop, or [None] when the loop runs to its end. *)
Fixpoint scan_logs (logs : list string) (n : nat) : option thrown :=
  match n with
  | O => None
  | S i =>
      match logs !! i with
      | Some line =>
          if startsWith line program_log_marker
          then Some (ErrorObj ("Transaction failed: "
                                 +:+ slice (String.length program_log_marker) line))
          else scan_logs logs i
      | None => Some (TypeErrorObj "startsWith")
      end
  end.

(** Lines 128-141: the error thrown once [simulateResult] is known. *)
Definition diagnose (simulateResult : option SimulatedTransactionResponse) : thrown :=
  match simulateResult with
  | Some r =>
      if truthy (err r) then
        match match logs r with
              | Some ls => scan_logs ls (length ls)
              | None => None
              end with
        | Some e => e
        | None => ErrorObj (JSON_stringify (err r))
        end
      else ErrorObj "Transaction failed"
  | None => ErrorObj "Transaction failed"
  end.

(** The diagnosis in the words of the specification: the last line that
    carries the program-log marker, without the marker. *)
Definition last_program_log (lines : list string) : option string :=
  option_map (slice (String.length program_log_marker))
             (List.find (fun line => startsWith line program_log_marker) (rev lines)).

(** A line that carries the marker, and the error line 133 makes of it. *)
Definition marked (line : string) : bool := startsWith line program_log_marker.

Definition log_error (line : string) : thrown :=
  ErrorObj ("Transaction failed: " +:+ slice (String.length program_log_marker) line).

(** [err.timeout] on the caught value: an [Error] object has no such
    property. *)
Definition err_timeout (e : thrown) : completion bool :=
  match e with
  | ErrorObj _ => Returned false
  | TypeErrorObj _ => Returned false
  | Value v =>
      match get_property v "timeout" with
      | Returned t => Returned (truthy t)
      | Thrown te => Thrown te
      end
  end.

(** ** Time *)

(** JavaScript numbers are doubles: clock readings and time-outs are
    [float]s, and [/], [-] and [<] are the operations of IEEE 754.

    [getUnixTs]: [new Date().getTime() / 1000], on the clock reading in
    milliseconds. *)
Definition getUnixTs (clock_ms : float) : float := (clock_ms / 1000)%float.

(** ** [sendTransaction] as a machine driven by the node's answers *)

Section Submission.

(** The payload assembler is a collaborator: lines 78-88 set the blockhash
    and the signers, sign and serialize, and may throw. *)
Variable Transaction : Type.
Variable Account : Type.
Variable sign_and_serialize :
  Transaction -> Blockhash -> Account -> list Account -> completion RawTransaction.

(** Requests the client issues, in the order it issues them. *)
Inductive request : Type :=
  | GetRecentBlockhash
  | SendRawTransaction (rawTransaction : RawTransaction)   (* line 91 *)
  | Resend (rawTransaction : RawTransaction)               (* line 100 *)
  | AwaitConfirmation (txid : TransactionSignature) (timeout : float)
      (confirmLevel : TransactionConfirmationStatus)       (* line 108 *)
  | SimulateTransaction (transaction : Transaction).       (* line 121 *)

Definition is_resend (r : request) : bool :=
  match r with Resend _ => true | _ => false end.

Definition is_simulate (r : request) : bool :=
  match r with SimulateTransaction _ => true | _ => false end.

Definition resends (t : list request) : list request := List.filter is_resend t.
Definition simulations (t : list request) : list request := List.filter is_simulate t.

(** Where the body of [sendTransaction] is suspended. *)
Inductive main_pc : Type :=
  | AwaitingBlockhash
  | AwaitingFirstSend (rawTransaction : RawTransaction) (startTime : float)
  | AwaitingConfirmation (txid : TransactionSignature)
  | AwaitingSimulation
  | Settled (c : completion TransactionSignature).

(** Where the resend loop of lines 98-105 is. *)
Inductive loop_pc : Type :=
  | LoopNotStarted
  | LoopSleeping (rawTransaction : RawTransaction) (startTime : float)
  | LoopExited.

(** [done] does not exist before line 97; it reads false here until then.
    The promise of a resend (line 100) is held by nobody: its answer reaches
    no code of the call and is only recorded, in [resend_answers]. *)
Record state : Type := {
  main : main_pc;
  loop : loop_pc;
  done : bool;
  trace : list request;
  resend_answers : list (completion TransactionSignature)
}.

(** What the environment delivers: the answer to an awaited request, a
    timer of [sleep(300)], or the answer to a resend nobody awaits.  The
    continuations that read the clock receive its reading. *)
Inductive input : Type :=
  | Blockhash_settles (r : completion Blockhash) (clock_ms : float)
  | FirstSend_settles (r : completion TransactionSignature) (clock_ms : float)
  | Timer_fires (clock_ms : float)
  | Resend_settles (r : completion TransactionSignature)
  | Confirmation_settles (r : completion unit)
  | Simulation_settles (o : simulate_outcome).

Section Call.

Variable transaction : Transaction.
Variable payer : Account.
Variable additionalSigners : list Account.
Variable timeout : float.
Variable confirmLevel : TransactionConfirmationStatus.

(** Line 79 is the first thing the call does. *)
Definition init : state :=
  {| main := AwaitingBlockhash; loop := LoopNotStarted; done := false;
     trace := [GetRecentBlockhash]; resend_answers := [] |}.

(** The loop condition of line 99. *)
Definition loop_condition (done : bool) (startTime : float) (clock_ms : float) : bool :=
  negb done && PrimFloat.ltb (getUnixTs clock_ms - startTime) (timeout / 1000).

(** One pass of the loop from its head to [await sleep(300)]. *)
Definition loop_iteration (st : state) (rawTransaction : RawTransaction)
    (startTime : float) (clock_ms : float) : state :=
  if loop_condition (done st) startTime clock_ms
  then {| main := main st; loop := LoopSleeping rawTransaction startTime;
          done := done st; trace := trace st ++ [Resend rawTransaction];
          resend_answers := resend_answers st |}
  else {| main := main st; loop := LoopExited; done := done st; trace := trace st;
          resend_answers := resend_answers st |}.

(** The [finally] of line 143, then the call settles with [c]. *)
Definition finish (st : state) (c : completion TransactionSignature) : state :=
  {| main := Settled c; loop := loop st; done := true; trace := trace st;
     resend_answers := resend_answers st |}.

(** A throw before the [try]: nothing else runs. *)
Definition abort (st : state) (e : thrown) : state :=
  {| main := Settled (Thrown e); loop := loop st; done := done st; trace := trace st;
     resend_answers := resend_answers st |}.

(** A resend is answered.  The promise was dropped at line 100, with no
    [await] and no [catch]: no code of the call runs, whatever the answer.
    An answer to a resend that was never issued does not exist. *)
Definition record_answer (st : state) (r : completion TransactionSignature) : state :=
  if Nat.ltb (length (resend_answers st)) (length (resends (trace st)))
  then {| main := main st; loop := loop st; done := done st; trace := trace st;
          resend_answers := resend_answers st ++ [r] |}
  else st.

Definition step (st : state) (i : input) : state :=
  match i, main st with
  | Blockhash_settles r clock_ms, AwaitingBlockhash =>
      match r with
      | Thrown e => abort st e
      | Returned blockhash =>
          match sign_and_serialize transaction blockhash payer additionalSigners with
          | Thrown e => abort st e
          | Returned rawTransaction =>
              {| main := AwaitingFirstSend rawTransaction (getUnixTs clock_ms);
                 loop := loop st; done := done st;
                 trace := trace st ++ [SendRawTransaction rawTransaction];
                 resend_answers := resend_answers st |}
          end
      end
  | FirstSend_settles r clock_ms, AwaitingFirstSend rawTransaction startTime =>
      match r with
      | Thrown e => abort st e
      | Returned txid =>
          let declared := {| main := main st; loop := loop st; done := false;
                             trace := trace st;
                             resend_answers := resend_answers st |} in
          let st1 := loop_iteration declared rawTransaction startTime clock_ms in
          {| main := AwaitingConfirmation txid; loop := loop st1; done := done st1;
             trace := trace st1 ++ [AwaitConfirmation txid timeout confirmLevel];
             resend_answers := resend_answers st1 |}
      end
  | Timer_fires clock_ms, _ =>
      match loop st with
      | LoopSleeping rawTransaction startTime =>
          loop_iteration st rawTransaction startTime clock_ms
      | _ => st
      end
  | Resend_settles r, _ => record_answer st r
  | Confirmation_settles r, AwaitingConfirmation txid =>
      match r with
      | Returned _ => finish st (Returned txid)
      | Thrown e =>
          match err_timeout e with
          | Thrown te => finish st (Thrown te)
          | Returned true =>
              finish st (Thrown (ErrorObj "Timed out awaiting confirmation on transaction"))
          | Returned false =>
              {| main := AwaitingSimulation; loop := loop st; done := done st;
                 trace := trace st ++ [SimulateTransaction transaction];
                 resend_answers := resend_answers st |}
          end
      end
  | Simulation_settles o, AwaitingSimulation =>
      finish st (Thrown (diagnose (simulateResult_of o)))
  | _, _ => st
  end.

Definition run (st : state) (inputs : list input) : state :=
  fold_left step inputs st.

(** The settled result of the call, if the inputs take it that far.  [run]
    is the code of the call alone; what a host makes of a rejection left
    unhandled is [host_run] below. *)
Definition outcome (st : state) : option (completion TransactionSignature) :=
  match main st with
  | Settled c => Some c
  | _ => None
  end.

Definition sendTransaction (inputs : list input)
  : option (completion TransactionSignature) :=
  outcome (run init inputs).

End Call.

(** What holds of every state the call can be in. *)
Definition inv (st : state) : Prop :=
  match main st with
  | AwaitingBlockhash | AwaitingFirstSend _ _ =>
      loop st = LoopNotStarted /\ done st = false
      /\ simulations (trace st) = [] /\ resends (trace st) = []
  | AwaitingConfirmation _ =>
      loop st <> LoopNotStarted /\ done st = false /\ simulations (trace st) = []
  | AwaitingSimulation =>
      loop st <> LoopNotStarted /\ done st = false
  | Settled _ =>
      (loop st <> LoopNotStarted /\ done st = true)
      \/ (loop st = LoopNotStarted /\ done st = false /\ resends (trace st) = [])
  end.

End Submission.

Arguments GetRecentBlockhash {Transaction}.
Arguments SendRawTransaction {Transaction} rawTransaction.
Arguments Resend {Transaction} rawTransaction.
Arguments AwaitConfirmation {Transaction} txid timeout confirmLevel.
Arguments SimulateTransaction {Transaction} transaction.
Arguments init {Transaction}.
Arguments loop_iteration {Transaction} timeout st rawTransaction startTime clock_ms.
Arguments finish {Transaction} st c.
Arguments abort {Transaction} st e.
Arguments step {Transaction Account} sign_and_serialize transaction payer
  additionalSigners timeout confirmLevel st i.
Arguments run {Transaction Account} sign_and_serialize transaction payer
  additionalSigners timeout confirmLevel st inputs.
Arguments outcome {Transaction} st.
Arguments sendTransaction {Transaction Account} sign_and_serialize transaction payer
  additionalSigners timeout confirmLevel inputs.
Arguments is_resend {Transaction} r.
Arguments is_simulate {Transaction} r.
Arguments resends {Transaction} t.
Arguments simulations {Transaction} t.
Arguments main {Transaction} s.
Arguments loop {Transaction} s.
Arguments done {Transaction} s.
Arguments trace {Transaction} s.
Arguments resend_answers {Transaction} s.
Arguments record_answer {Transaction} st r.
Arguments inv {Transaction} st.

Definition is_simulation_answer (i : input) : bool :=
  match i with Simulation_settles _ => true | _ => false end.

(** ** Rejections nobody handles

    A resend that is rejected has no handler (line 100): it is an unhandled
    rejection.  What becomes of the program is the host's choice.  It is
    reported and the program goes on (a browser, Node with a handler for
    [unhandledRejection] or started with [--unhandled-rejections=warn]), or
    it ends the process before any other callback runs (Node's default). *)

Inductive unhandled_rejections : Type :=
  | Reported
  | Fatal.

Definition is_rejected_resend (i : input) : bool :=
  match i with
  | Resend_settles (Thrown _) => true
  | _ => false
  end.

Section Host.

Context {Transaction Account : Type}.
Variable sign_and_serialize :
  Transaction -> Blockhash -> Account -> list Account -> completion RawTransaction.
Variable transaction : Transaction.
Variable payer : Account.
Variable additionalSigners : list Account.
Variable timeout : float.
Variable confirmLevel : TransactionConfirmationStatus.

(** The rejections of resends, in the order they arrived. *)
Definition unhandled (st : state Transaction) : list thrown :=
  omap (fun r => match r with
                 | Thrown e => Some e
                 | Returned _ => None
                 end) (resend_answers st).

(** The program that made the call: running, or ended by the host on an
    unhandled rejection, with the call left as it was. *)
Inductive process : Type :=
  | Running (st : state Transaction)
  | Ended (st : state Transaction) (e : thrown).

Definition state_of (p : process) : state Transaction :=
  match p with
  | Running st => st
  | Ended st _ => st
  end.

Definition host_step (policy : unhandled_rejections) (p : process) (i : input)
  : process :=
  match p with
  | Ended _ _ => p
  | Running st =>
      let st' := step sign_and_serialize transaction payer additionalSigners
                   timeout confirmLevel st i in
      match policy, unhandled st' with
      | Fatal, e :: _ => Ended st' e
      | _, _ => Running st'
      end
  end.

Definition host_run (policy : unhandled_rejections) (p : process)
    (inputs : list input) : process :=
  fold_left (host_step policy) inputs p.

(** The settled result of the call on a host, if the program lives to
    see it. *)
Definition host_sendTransaction (policy : unhandled_rejections)
    (inputs : list input) : option (completion TransactionSignature) :=
  outcome (state_of (host_run policy (Running init) inputs)).

End Host.

Arguments process Transaction : clear implicits.

(** ** [Promise.all]

    The promise returned by [Promise.all] keeps an array of slots and a
    count of the elements still awaited.  Each element that fulfils fills
    its slot once; the first element to reject rejects the whole; a promise
    settles once only. *)

Section PromiseAll.

Context {V : Type}.

Record all_state : Type := {
  values : list (option V);
  remaining : nat;
  settled : option (completion (list V))
}.

(** A promise capability is used at most once. *)
Definition settle_once (old : option (completion (list V))) (c : completion (list V))
  : option (completion (list V)) :=
  match old with
  | Some _ => old
  | None => Some c
  end.

(** The array handed to [resolve]: every slot is filled by then. *)
Definition array_of (slots : list (option V)) : list V := omap id slots.

Definition all_init (n : nat) : all_state :=
  {| values := replicate n None;
     remaining := n;
     settled := if Nat.eqb n 0 then Some (Returned []) else None |}.

(** Element [i] settles with [r]. *)
Definition all_settle (st : all_state) (i : nat) (r : completion V) : all_state :=
  match r with
  | Thrown e =>
      {| values := values st; remaining := remaining st;
         settled := settle_once (settled st) (Thrown e) |}
  | Returned v =>
      match values st !! i with
      | Some None =>
          let vs := <[i := Some v]> (values st) in
          let n := Nat.pred (remaining st) in
          {| values := vs; remaining := n;
             settled := if Nat.eqb n 0
                        then settle_once (settled st) (Returned (array_of vs))
                        else settled st |}
      | _ => st
      end
  end.

(** [elements] holds how each element ends, [None] for one that never
    settles; [order] is the order in which the elements settle. *)
Definition all_event (elements : list (option (completion V))) (st : all_state) (i : nat)
  : all_state :=
  match elements !! i with
  | Some (Some r) => all_settle st i r
  | _ => st
  end.

Definition promise_all (elements : list (option (completion V))) (order : list nat)
  : option (completion (list V)) :=
  settled (fold_left (all_event elements) order (all_init (length elements))).

(** The slots still empty. *)
Fixpoint holes (slots : list (option V)) : nat :=
  match slots with
  | [] => 0
  | None :: rest => S (holes rest)
  | Some _ :: rest => holes rest
  end.

(** What holds of the state as long as no element has rejected. *)
Definition all_inv (elements : list (option (completion V))) (st : all_state) : Prop :=
  length (values st) = length elements
  /\ (forall i v, values st !! i = Some (Some v) ->
                  elements !! i = Some (Some (Returned v)))
  /\ remaining st = holes (values st)
  /\ settled st = if Nat.eqb (remaining st) 0
                  then Some (Returned (array_of (values st)))
                  else None.

(** What holds of every state, rejections included. *)
Definition all_wf (elements : list (option (completion V))) (st : all_state) : Prop :=
  length (values st) = length elements
  /\ (forall i v, values st !! i = Some (Some v) ->
                  elements !! i = Some (Some (Returned v)))
  /\ remaining st = holes (values st)
  /\ (forall vs, settled st = Some (Returned vs) ->
                 holes (values st) = 0 /\ vs = array_of (values st)).

End PromiseAll.

Arguments all_state V : clear implicits.

(** ** [sendTransactions] (lines 51-69) *)

Section Batch.

Context {Transaction Account : Type}.
Variable sign_and_serialize :
  Transaction -> Blockhash -> Account -> list Account -> completion RawTransaction.

(** The promises of line 59, one call per entry; [answers i] is what the
    node delivers to the submission of entry [i]. *)
Definition submissions (transactions : list Transaction) (payer : Account)
    (additionalSigners : list Account) (timeout : float)
    (confirmLevel : TransactionConfirmationStatus)
    (answers : nat -> list input)
  : list (option (completion TransactionSignature)) :=
  imap (fun i tx =>
          sendTransaction sign_and_serialize tx payer additionalSigners
            timeout confirmLevel (answers i))
       transactions.

(** [order] is the order in which the submissions settle. *)
Definition sendTransactions (transactions : list Transaction) (payer : Account)
    (additionalSigners : list Account) (timeout : float)
    (confirmLevel : TransactionConfirmationStatus)
    (answers : nat -> list input) (order : list nat)
  : option (completion (list TransactionSignature)) :=
  promise_all
    (submissions transactions payer additionalSigners timeout confirmLevel answers)
    order.

(** What a caller holds once the batch has settled. *)
Definition identifiers_received (o : option (completion (list TransactionSignature)))
  : list TransactionSignature :=
  match o with
  | Some (Returned ids) => ids
  | _ => []
  end.

Definition failures_received (o : option (completion (list TransactionSignature)))
  : list thrown :=
  match o with
  | Some (Thrown e) => [e]
  | _ => []
  end.

End Batch.

(** ** Sequencing of computations that may throw *)

Definition bind {A B : Type} (c : completion A) (k : A -> completion B) : completion B :=
  match c with
  | Returned a => k a
  | Thrown e => Thrown e
  end.

Notation "x <- c ;; k" := (bind c (fun x => k))
  (at level 100, c at next level, right associativity).

(** ** Account readers (lines 255-262, 303-317, 443-454) *)

Definition PublicKey : Type := string.
Definition Buffer : Type := string.

Record AccountInfo : Type := { data : Buffer }.

Section Accounts.

(** Layout decoders and domain constructors are collaborators.  A decoder
    is handed a buffer or [undefined]. *)
Context {Decoded RootBank MerpsGroup MerpsAccount : Type}.
Variable RootBankLayout_decode : option Buffer -> completion Decoded.
Variable MerpsGroupLayout_decode : option Buffer -> completion Decoded.
Variable MerpsAccountLayout_decode : option Buffer -> completion Decoded.
Variable new_RootBank : Decoded -> RootBank.
Variable new_MerpsGroup : PublicKey -> Decoded -> MerpsGroup.
Variable new_MerpsAccount : PublicKey -> Decoded -> MerpsAccount.
Variable loadOpenOrders : MerpsAccount -> PublicKey -> completion MerpsAccount.

(** The node's answer to [getAccountInfo]: an account, null, or a failure. *)
Variable getAccountInfo : PublicKey -> completion (option AccountInfo).

(** [acc == null ? undefined : acc.data] *)
Definition data_or_undefined (acc : option AccountInfo) : option Buffer :=
  match acc with
  | None => None
  | Some a => Some (data a)
  end.

(** [acc.data] *)
Definition data_of (acc : option AccountInfo) : completion Buffer :=
  match acc with
  | None => Thrown (TypeErrorObj "data")
  | Some a => Returned (data a)
  end.

Definition getMerpsGroup (merpsGroup : PublicKey) : completion MerpsGroup :=
  accountInfo <- getAccountInfo merpsGroup ;;
  decoded <- MerpsGroupLayout_decode (data_or_undefined accountInfo) ;;
  Returned (new_MerpsGroup merpsGroup decoded).

Definition getMerpsAccount (merpsAccountPk dexProgramId : PublicKey)
  : completion MerpsAccount :=
  acc <- getAccountInfo merpsAccountPk ;;
  decoded <- MerpsAccountLayout_decode (data_or_undefined acc) ;;
  loadOpenOrders (new_MerpsAccount merpsAccountPk decoded) dexProgramId.

(** The callback of [accounts.map] at lines 448-451. *)
Definition parse_root_bank (acc : option AccountInfo) : completion RootBank :=
  buffer <- data_of acc ;;
  decoded <- RootBankLayout_decode (Some buffer) ;;
  Returned (new_RootBank decoded).

(** [Array.prototype.map] with a callback that may throw: index order, the
    first throw ends it. *)
Fixpoint map_throwing {A B : Type} (f : A -> completion B) (xs : list A)
  : completion (list B) :=
  match xs with
  | [] => Returned []
  | x :: rest =>
      y <- f x ;;
      ys <- map_throwing f rest ;;
      Returned (y :: ys)
  end.

(** [order] is the order in which the lookups settle. *)
Definition loadRootBanks (rootBanks : list PublicKey) (order : list nat)
  : option (completion (list RootBank)) :=
  match promise_all (List.map (fun pk => Some (getAccountInfo pk)) rootBanks) order with
  | None => None
  | Some (Thrown e) => Some (Thrown e)
  | Some (Returned accounts) => Some (map_throwing parse_root_bank accounts)
  end.

End Accounts.

(** ** Methods without a body (lines 435-441) *)

Section Unimplemented.

Context {Connection : Type}.

Record MerpsClient : Type := {
  connection : Connection;
  programId : PublicKey
}.

(** A method's effect: how it ends, the object afterwards, and the
    requests it sent to the node. *)
Record effect (Req A : Type) : Type := {
  result : completion A;
  this_after : MerpsClient;
  requests : list Req
}.

Definition placePerpOrder {Req : Type} (this : MerpsClient)
  : effect Req (list TransactionSignature) :=
  {| result := Thrown (ErrorObj "Not Implemented"); this_after := this; requests := [] |}.

Definition cancelPerpOrder {Req : Type} (this : MerpsClient)
  : effect Req (list TransactionSignature) :=
  {| result := Thrown (ErrorObj "Not Implemented"); this_after := this; requests := [] |}.

End Unimplemented.

Arguments MerpsClient Connection : clear implicits.
Arguments effect Connection Req A : clear implicits.
Arguments result {Connection Req A} e.
Arguments this_after {Connection Req A} e.
Arguments requests {Connection Req A} e.

(** ** Sample runs

    A concrete client, used to run the definitions above: transactions,
    accounts and keys are strings, signing appends the blockhash. *)

Definition sample_sign (tx : string) (blockhash : Blockhash) (payer : string)
    (signers : list string) : completion RawTransaction :=
  Returned (tx +:+ "@" +:+ blockhash).

Definition sample_run : state string -> list input -> state string :=
  run sample_sign "tx" "payer" [] 30000 "confirmed".

Definition sample_send : list input -> option (completion TransactionSignature) :=
  sendTransaction sample_sign "tx" "payer" [] 30000 "confirmed".

(** The blockhash and the first send are answered; the loop has sent once
    more and the confirmation is awaited. *)
Definition sample_start : list input :=
  [Blockhash_settles (Returned "bh") 1000; FirstSend_settles (Returned "sig") 1300].

(** What the watcher rejects with on a timeout, and two status errors. *)
Definition timeout_value : thrown := Value (JObj [("timeout", JBool true)]).

Definition js_zero : safe_integer := {| integer := 0; integer_safe := eq_refl |}.
Definition js_one : safe_integer := {| integer := 1; integer_safe := eq_refl |}.

Definition custom_error : json :=
  JObj [("InstructionError", JArr [JNum js_zero; JObj [("Custom", JNum js_one)]])].

Definition rejection_value : thrown := Value custom_error.
Definition other_rejection : thrown := Value (JStr "AccountInUse").

Definition dry_run (e : json) (lines : option (list string)) : simulate_outcome :=
  SimResolves (Some {| value := Some {| err := e; logs := lines |} |}).

Definition abc_logs : list string :=
  ["Program log: A"; "Program log: B"; "Program log: C"].

Definition plain_logs : list string :=
  ["Program 11111111111111111111111111111111 invoke [1]"; "Program failed"].

Definition resend_failure : input := Resend_settles (Thrown (ErrorObj "fetch failed")).

Definition specific_dry_run : simulate_outcome :=
  dry_run custom_error (Some ["Program log: insufficient funds"]).

(** The confirmation times out although a dry-run would be answered. *)
Definition timed_out_inputs : list input :=
  sample_start ++ [Confirmation_settles (Thrown timeout_value);
                   Simulation_settles specific_dry_run].

(** The confirmation succeeds; timers and a failed resend come later. *)
Definition confirmed_inputs : list input :=
  sample_start ++ [Confirmation_settles (Returned tt)].

Definition late_inputs : list input :=
  [Timer_fires 1600; resend_failure; Timer_fires 1900].

(** The confirmation is rejected and the dry-run is still pending. *)
Definition rejected_inputs : list input :=
  sample_start ++ [Confirmation_settles (Thrown rejection_value)].

(** A rejection with [e], then a dry-run that cannot be performed. *)
Definition undiagnosed_inputs (e : thrown) : list input :=
  sample_start ++ [Confirmation_settles (Thrown e);
                   Simulation_settles (SimThrows (ErrorObj "fetch failed"))].

(** A confirmed run with failing resends. *)
Definition noisy_inputs : list input :=
  sample_start ++ [resend_failure; Timer_fires 1600; resend_failure;
                   Confirmation_settles (Returned tt)].

(** A batch of three in which the second submission is rejected and cannot
    be diagnosed, and the other two are confirmed. *)
Definition sample_batch : list string := ["a"; "b"; "c"].

Definition sample_answers (i : nat) : list input :=
  if Nat.eqb i 1 then undiagnosed_inputs rejection_value else confirmed_inputs.

Definition sample_submissions : list (option (completion TransactionSignature)) :=
  submissions sample_sign sample_batch "payer" [] 30000 "confirmed" sample_answers.

Definition sample_sendTransactions (order : list nat)
  : option (completion (list TransactionSignature)) :=
  sendTransactions sample_sign sample_batch "payer" [] 30000 "confirmed"
    sample_answers order.

(** A ledger with one root bank; every other key has no account.  The
    sample decoder returns the buffer and rejects [undefined]. *)
Definition sample_decode (b : option Buffer) : completion string :=
  match b with
  | Some x => Returned x
  | None => Thrown (ErrorObj "decode: no buffer")
  end.

Definition sample_getAccountInfo (pk : PublicKey) : completion (option AccountInfo) :=
  if String.eqb pk "bankA" then Returned (Some {| data := "A" |}) else Returned None.

Definition sample_loadRootBanks (rootBanks : list PublicKey) (order : list nat)
  : option (completion (list string)) :=
  loadRootBanks sample_decode id sample_getAccountInfo rootBanks order.

(** ** The request protocol of one call

    How far a call has come, with the number of resends before the
    confirmation was awaited, while it was awaited, and after the dry-run
    was requested. *)

Inductive stage : Type :=
  | Asked
  | Sent (rawTransaction : RawTransaction)
  | Awaited (rawTransaction : RawTransaction) (txid : TransactionSignature)
      (early later : nat)
  | Simulated (rawTransaction : RawTransaction) (txid : TransactionSignature)
      (early later last : nat).

(** Inputs the body of the call does not wait for. *)
Definition is_noise (i : input) : bool :=
  match i with
  | Timer_fires _ | Resend_settles _ => true
  | _ => false
  end.

Section Protocol.

Context {Transaction : Type}.
Variable transaction : Transaction.
Variable timeout : float.
Variable confirmLevel : TransactionConfirmationStatus.

(** The requests a call at stage [s] has issued, in order. *)
Definition protocol_trace (s : stage) : list (@request Transaction) :=
  match s with
  | Asked => [GetRecentBlockhash]
  | Sent raw => [GetRecentBlockhash; SendRawTransaction raw]
  | Awaited raw txid early later =>
      [GetRecentBlockhash; SendRawTransaction raw]
        ++ replicate early (Resend raw)
        ++ [AwaitConfirmation txid timeout confirmLevel]
        ++ replicate later (Resend raw)
  | Simulated raw txid early later last =>
      [GetRecentBlockhash; SendRawTransaction raw]
        ++ replicate early (Resend raw)
        ++ [AwaitConfirmation txid timeout confirmLevel]
        ++ replicate later (Resend raw)
        ++ [SimulateTransaction transaction]
        ++ replicate last (Resend raw)
  end.

(** The bytes a stage carries. *)
Definition stage_raw (s : stage) : option RawTransaction :=
  match s with
  | Asked => None
  | Sent raw | Awaited raw _ _ _ | Simulated raw _ _ _ _ => Some raw
  end.

(** The loop, once started, holds the bytes [raw]. *)
Definition loop_holds (l : loop_pc) (raw : RawTransaction) : Prop :=
  l = LoopExited \/ exists startTime, l = LoopSleeping raw startTime.

(** How the stage of the trace relates to the two program counters. *)
Definition at_stage (st : state Transaction) (s : stage) : Prop :=
  trace st = protocol_trace s
  /\ match s with
     | Asked =>
         loop st = LoopNotStarted
         /\ (main st = AwaitingBlockhash \/ exists e, main st = Settled (Thrown e))
     | Sent raw =>
         loop st = LoopNotStarted
         /\ ((exists startTime, main st = AwaitingFirstSend raw startTime)
             \/ exists e, main st = Settled (Thrown e))
     | Awaited raw txid early _ =>
         early <= 1 /\ loop_holds (loop st) raw
         /\ (main st = AwaitingConfirmation txid
             \/ main st = Settled (Returned txid)
             \/ exists e, main st = Settled (Thrown e))
     | Simulated raw txid early _ _ =>
         early <= 1 /\ loop_holds (loop st) raw
         /\ (main st = AwaitingSimulation \/ exists e, main st = Settled (Thrown e))
     end.

End Protocol.

(** What may still arrive after a call has ended its loop or settled:
    timers inside the deadline, answers to requests never made. *)
Definition sample_late : list input :=
  [Timer_fires 1600; resend_failure; FirstSend_settles (Returned "other") 1700;
   Confirmation_settles (Returned tt); Timer_fires 1900;
   Simulation_settles specific_dry_run].

(** A batch in which the first submission times out, the second is
    confirmed and the third is rejected. *)
Definition mixed_answers (i : nat) : list input :=
  match i with
  | 0 => sample_start ++ [Confirmation_settles (Thrown timeout_value)]
  | 1 => confirmed_inputs
  | _ => undiagnosed_inputs rejection_value
  end.

Definition mixed_sendTransactions (order : list nat)
  : option (completion (list TransactionSignature)) :=
  sendTransactions sample_sign sample_batch "payer" [] 30000 "confirmed"
    mixed_answers order.

(** A batch in which the second submission is never confirmed or rejected. *)
Definition stuck_answers (i : nat) : list input :=
  if Nat.eqb i 1 then sample_start else confirmed_inputs.

(** A ledger whose answer for the key "down" is a failure. *)
Definition failing_getAccountInfo (pk : PublicKey) : completion (option AccountInfo) :=
  if String.eqb pk "down" then Thrown (ErrorObj "fetch failed")
  else sample_getAccountInfo pk.

(** ** Instructions and the methods that submit one (lines 319-433) *)

Record AccountMeta : Type := {
  isSigner : bool;
  isWritable : bool;
  pubkey : PublicKey
}.

Module Instruction.

Record t : Type := {
  keys : list AccountMeta;
  data : Buffer;
  programId : PublicKey
}.

End Instruction.

(** [new Transaction()] followed by [add]: the instructions in order. *)
Definition InstructionList : Type := list Instruction.t.

Record TokenInfo : Type := { decimals : Z }.

(** [xs[i]] for a number [i]: undefined outside the array. *)
Definition array_get {A : Type} (xs : list A) (i : Z) : option A :=
  if (i <? 0)%Z then None else xs !! Z.to_nat i.

(** The object handed to [encodeMerpsInstruction]. *)
Inductive MerpsInstruction (BN : Type) : Type :=
  | InitMerpsGroup (signerNonce validInterval : BN)
  | InitMerpsAccount
  | Deposit (quantity : BN)
  | CacheRootBanks
  | AddOracle
  | AddSpotMarket (maint_asset_weight init_asset_weight : BN).
Arguments InitMerpsGroup {BN} signerNonce validInterval.
Arguments InitMerpsAccount {BN}.
Arguments Deposit {BN} quantity.
Arguments CacheRootBanks {BN}.
Arguments AddOracle {BN}.
Arguments AddSpotMarket {BN} maint_asset_weight init_asset_weight.

(** How a method that submits ends, and what it asked of the node. *)
Record submission : Type := {
  ended : option (completion TransactionSignature);
  issued : list (@request InstructionList)
}.

Section Methods.

(** Keys, domain objects, number conversion and instruction encoding are
    collaborators. *)
Context {Account MerpsGroup MerpsAccount Number BN : Type}.
Variable sign_and_serialize :
  InstructionList -> Blockhash -> Account -> list Account -> completion RawTransaction.
Variable publicKey : Account -> PublicKey.
Variable group_publicKey : MerpsGroup -> PublicKey.
Variable tokens : MerpsGroup -> list TokenInfo.
Variable getRootBankIndex : MerpsGroup -> PublicKey -> Z.
Variable account_publicKey : MerpsAccount -> PublicKey.
Variable uiToNative : Number -> Z -> completion BN.
Variable encodeMerpsInstruction : MerpsInstruction BN -> completion Buffer.
Variable makeWithdrawInstruction :
  PublicKey -> MerpsGroup -> MerpsAccount -> PublicKey -> PublicKey -> PublicKey ->
  PublicKey -> PublicKey -> BN -> completion Instruction.t.

(** [this.programId] *)
Variable this_programId : PublicKey.

(** [this.sendTransaction(transaction, payer, additionalSigners)] with the
    default timeout and confirmation level. *)
Definition submit (transaction : InstructionList) (payer : Account)
    (additionalSigners : list Account) (inputs : list input) : submission :=
  let st := run sign_and_serialize transaction payer additionalSigners
              30000 "confirmed" init inputs in
  {| ended := outcome st; issued := trace st |}.

(** A throw before anything is submitted. *)
Definition throws_early (e : thrown) : submission :=
  {| ended := Some (Thrown e); issued := [] |}.

(** [merpsGroup.tokens[tokenIndex].decimals] *)
Definition token_decimals (merpsGroup : MerpsGroup) (rootBank : PublicKey)
  : completion Z :=
  match array_get (tokens merpsGroup) (getRootBankIndex merpsGroup rootBank) with
  | None => Thrown (TypeErrorObj "decimals")
  | Some token => Returned (decimals token)
  end.

Definition deposit_keys (merpsGroup : MerpsGroup) (merpsAccount : MerpsAccount)
    (owner : Account) (rootBank nodeBank vault tokenAcc TOKEN_PROGRAM_ID : PublicKey)
  : list AccountMeta :=
  [ {| isSigner := false; isWritable := true; pubkey := group_publicKey merpsGroup |};
    {| isSigner := false; isWritable := true; pubkey := account_publicKey merpsAccount |};
    {| isSigner := true; isWritable := false; pubkey := publicKey owner |};
    {| isSigner := true; isWritable := true; pubkey := rootBank |};
    {| isSigner := true; isWritable := true; pubkey := nodeBank |};
    {| isSigner := true; isWritable := false; pubkey := vault |};
    {| isSigner := false; isWritable := false; pubkey := TOKEN_PROGRAM_ID |};
    {| isSigner := false; isWritable := true; pubkey := tokenAcc |} ].

(** Lines 319-361. *)
Definition deposit (merpsGroup : MerpsGroup) (merpsAccount : MerpsAccount)
    (owner : Account) (rootBank nodeBank vault tokenAcc TOKEN_PROGRAM_ID : PublicKey)
    (quantity : Number) (inputs : list input) : submission :=
  match
    (d <- token_decimals merpsGroup rootBank ;;
     nativeQuantity <- uiToNative quantity d ;;
     data <- encodeMerpsInstruction (Deposit nativeQuantity) ;;
     Returned
       [ {| Instruction.keys :=
              deposit_keys merpsGroup merpsAccount owner rootBank nodeBank vault
                tokenAcc TOKEN_PROGRAM_ID;
            Instruction.data := data;
            Instruction.programId := this_programId |} ])
  with
  | Thrown e => throws_early e
  | Returned transaction => submit transaction owner [] inputs
  end.

(** Lines 363-400. *)
Definition withdraw (merpsGroup : MerpsGroup) (merpsAccount : MerpsAccount)
    (owner : Account) (rootBank nodeBank vault tokenAcc : PublicKey)
    (quantity : Number) (inputs : list input) : submission :=
  match
    (d <- token_decimals merpsGroup rootBank ;;
     nativeQuantity <- uiToNative quantity d ;;
     instruction <- makeWithdrawInstruction this_programId merpsGroup merpsAccount
                      (publicKey owner) rootBank nodeBank vault tokenAcc
                      nativeQuantity ;;
     Returned [instruction])
  with
  | Thrown e => throws_early e
  | Returned transaction => submit transaction owner [] inputs
  end.

Definition cacheRootBanks_keys (merpsGroup merpsCache : PublicKey)
    (rootBanks : list PublicKey) : list AccountMeta :=
  [ {| isSigner := false; isWritable := false; pubkey := merpsGroup |};
    {| isSigner := false; isWritable := true; pubkey := merpsCache |} ]
    ++ List.map (fun pubkey => {| isSigner := false; isWritable := false;
                                  pubkey := pubkey |}) rootBanks.

(** Lines 403-433. *)
Definition cacheRootBanks (payer : Account) (merpsGroup merpsCache : PublicKey)
    (rootBanks : list PublicKey) (inputs : list input) : submission :=
  match encodeMerpsInstruction CacheRootBanks with
  | Thrown e => throws_early e
  | Returned data =>
      submit [ {| Instruction.keys := cacheRootBanks_keys merpsGroup merpsCache rootBanks;
                  Instruction.data := data;
                  Instruction.programId := this_programId |} ]
        payer [] inputs
  end.

End Methods.

(** A group with one token; every other root bank has index -1. *)
Definition sample_index (group : list TokenInfo) (rootBank : PublicKey) : Z :=
  if String.eqb rootBank "rootA" then 0 else (-1).

Definition sample_deposit (rootBank : PublicKey) (inputs : list input) : submission :=
  deposit (fun tx bh _ _ => Returned bh) id (fun _ => "group") id sample_index
    (fun _ : unit => "account") (fun q d => Returned (q * 10 ^ d)%Z)
    (fun _ => Returned "data") "program"
    [{| decimals := 6 |}] tt "owner" rootBank "nodeA" "vaultA" "tokenAcc" "tokenProgram"
    5%Z inputs.

Definition sample_withdraw (rootBank : PublicKey) (inputs : list input) : submission :=
  withdraw (fun tx bh _ _ => Returned bh) id id sample_index
    (fun q d => Returned (q * 10 ^ d)%Z)
    (fun _ _ _ _ _ _ _ _ _ =>
       Returned {| Instruction.keys := []; Instruction.data := "w";
                   Instruction.programId := "program" |})
    "program" [{| decimals := 6 |}] tt "owner" rootBank "nodeA" "vaultA" "tokenAcc"
    5%Z inputs.

(** * Facts *)

Example stringify_instruction_error :
  JSON_stringify custom_error
  = "{" +:+ String dquote ("InstructionError" +:+ String dquote (":[0,{" +:+
      String dquote ("Custom" +:+ String dquote ":1}]}"))).
Proof. vm_compute. reflexivity. Qed.

(** ** The log scan *)

(** Scanning the first [n] lines downwards is a search in their reversal. *)
Lemma scan_logs_take (ls : list string) (n : nat) :
  n <= length ls ->
  scan_logs ls n = option_map log_error (List.find marked (rev (take n ls))).
Proof.
  induction n as [|i IH]; intros Hn.
  - reflexivity.
  - destruct (lookup_lt_is_Some_2 ls i ltac:(lia)) as [line Hline].
    rewrite (take_S_r _ _ _ Hline), rev_app_distr. simpl.
    rewrite Hline. fold (marked line).
    destruct (marked line); [reflexivity|].
    apply IH. lia.
Qed.

Lemma scan_logs_find (ls : list string) :
  scan_logs ls (length ls) = option_map log_error (List.find marked (rev ls)).
Proof.
  rewrite scan_logs_take by lia. now rewrite firstn_all.
Qed.

Lemma find_none_unmarked (ls : list string) :
  Forall (fun line => marked line = false) ls -> List.find marked ls = None.
Proof.
  induction 1 as [|line rest Hline _ IH]; simpl; [reflexivity|].
  now rewrite Hline.
Qed.

Lemma scan_logs_unmarked (ls : list string) :
  Forall (fun line => marked line = false) ls -> scan_logs ls (length ls) = None.
Proof.
  intros H. rewrite scan_logs_find, find_none_unmarked; [reflexivity|].
  now apply List.Forall_rev.
Qed.

Lemma diagnose_marked (r : SimulatedTransactionResponse) (ls : list string) (msg : string) :
  truthy (err r) = true -> logs r = Some ls -> last_program_log ls = Some msg ->
  diagnose (Some r) = ErrorObj ("Transaction failed: " +:+ msg).
Proof.
  intros Herr Hlogs Hlast. unfold diagnose. rewrite Herr, Hlogs, scan_logs_find.
  unfold last_program_log in Hlast. fold marked in Hlast.
  destruct (List.find marked (rev ls)) as [line|]; simpl in *; [|discriminate].
  now inversion Hlast.
Qed.

Lemma diagnose_unmarked (r : SimulatedTransactionResponse) :
  truthy (err r) = true ->
  match logs r with
  | Some ls => Forall (fun line => startsWith line program_log_marker = false) ls
  | None => True
  end ->
  diagnose (Some r) = ErrorObj (JSON_stringify (err r)).
Proof.
  intros Herr Hlogs. unfold diagnose. rewrite Herr.
  destruct (logs r) as [ls|]; [|reflexivity].
  now rewrite scan_logs_unmarked.
Qed.

Lemma diagnose_inconclusive (simulateResult : option SimulatedTransactionResponse) :
  match simulateResult with
  | Some r => truthy (err r) = false
  | None => True
  end ->
  diagnose simulateResult = ErrorObj "Transaction failed".
Proof.
  destruct simulateResult as [r|]; simpl; [|reflexivity].
  now intros ->.
Qed.

(** ** The submission machine *)

Section SubmissionFacts.

Context {Transaction Account : Type}.
Variable sign_and_serialize :
  Transaction -> Blockhash -> Account -> list Account -> completion RawTransaction.
Variable transaction : Transaction.
Variable payer : Account.
Variable additionalSigners : list Account.
Variable timeout : float.
Variable confirmLevel : TransactionConfirmationStatus.

Local Notation step' :=
  (step sign_and_serialize transaction payer additionalSigners timeout confirmLevel).
Local Notation run' :=
  (run sign_and_serialize transaction payer additionalSigners timeout confirmLevel).
Local Notation sendTransaction' :=
  (sendTransaction sign_and_serialize transaction payer additionalSigners timeout
     confirmLevel).

Lemma run_app (st : state Transaction) (a b : list input) :
  run' st (a ++ b) = run' (run' st a) b.
Proof. apply fold_left_app. Qed.

Lemma run_cons (st : state Transaction) (i : input) (rest : list input) :
  run' st (i :: rest) = run' (step' st i) rest.
Proof. reflexivity. Qed.

Lemma resends_app (t u : list (@request Transaction)) :
  resends (t ++ u) = resends t ++ resends u.
Proof. apply List.filter_app. Qed.

Lemma simulations_app (t u : list (@request Transaction)) :
  simulations (t ++ u) = simulations t ++ simulations u.
Proof. apply List.filter_app. Qed.

(** Recording the answer to a resend moves neither program counter and
    changes neither the flag nor the trace. *)
Lemma record_answer_control (st : state Transaction)
    (r : completion TransactionSignature) :
  main (record_answer st r) = main st /\ loop (record_answer st r) = loop st
  /\ done (record_answer st r) = done st /\ trace (record_answer st r) = trace st.
Proof. unfold record_answer. destruct (Nat.ltb _ _); repeat split. Qed.

Lemma step_resend_answer (st : state Transaction)
    (r : completion TransactionSignature) :
  step' st (Resend_settles r) = record_answer st r.
Proof. unfold step. now destruct (main st). Qed.

Lemma inv_record_answer (st : state Transaction)
    (r : completion TransactionSignature) :
  inv st -> inv (record_answer st r).
Proof.
  destruct (record_answer_control st r) as (Hm & Hl & Hd & Ht).
  unfold inv. now rewrite Hm, Hl, Hd, Ht.
Qed.

Lemma inv_init : inv (@init Transaction).
Proof. repeat split. Qed.


Lemma loop_iteration_facts (st : state Transaction) (raw : RawTransaction)
    (start : float) (clock_ms : float) :
  let st' := loop_iteration timeout st raw start clock_ms in
  main st' = main st /\ done st' = done st
  /\ simulations (trace st') = simulations (trace st)
  /\ loop st' <> LoopNotStarted
  /\ (done st = true -> trace st' = trace st /\ loop st' = LoopExited).
Proof.
  unfold loop_iteration, loop_condition.
  destruct (done st); simpl.
  - repeat split; congruence.
  - destruct (PrimFloat.ltb _ _); simpl; rewrite ?simulations_app, ?app_nil_r;
      repeat split; congruence.
Qed.

Lemma inv_step (st : state Transaction) (i : input) : inv st -> inv (step' st i).
Proof.
  intros H. unfold step.
  destruct i as [r c|r c|c|r|r|o].
  - destruct (main st) eqn:Hmain; try exact H.
    unfold inv in H. rewrite Hmain in H. destruct H as (Hl & Hd & Hs & Hr).
    destruct r as [bh|e]; [|right; auto].
    destruct (sign_and_serialize _ _ _ _) as [raw|e]; [|right; auto].
    unfold inv. simpl. rewrite resends_app, simulations_app, Hs, Hr. auto.
  - destruct (main st) eqn:Hmain; try exact H.
    unfold inv in H. rewrite Hmain in H. destruct H as (Hl & Hd & Hs & Hr).
    destruct r as [txid|e]; [|right; auto].
    match goal with
    | |- context [loop_iteration ?t ?s ?r ?q ?c] =>
        destruct (loop_iteration_facts s r q c) as (_ & Hd' & Hs' & Hl' & _)
    end.
    unfold inv. simpl in *. rewrite simulations_app, Hs', Hs, Hd'. auto.
  - destruct (loop st) as [|raw start|] eqn:Hloop;
      try (destruct (main st); exact H).
    destruct (loop_iteration_facts st raw start c) as (Hm' & Hd' & Hs' & Hl' & Hx).
    assert (match main st with AwaitingBlockhash | AwaitingFirstSend _ _ => False
                          | _ => True end) as Hstarted.
    { unfold inv in H. destruct (main st); auto; destruct H as (? & _); congruence. }
    assert (inv (loop_iteration timeout st raw start c)) as Hinv.
    { unfold inv in *. rewrite Hm', Hd', Hs'.
      destruct (main st); try contradiction; try tauto.
      destruct H as [[_ Hd]|(? & _)]; [|congruence]. left. auto. }
    destruct (main st); exact Hinv.
  - fold (step' st (Resend_settles r)). rewrite step_resend_answer.
    now apply inv_record_answer.
  - destruct (main st) eqn:Hmain; try exact H.
    unfold inv in H. rewrite Hmain in H. destruct H as (Hl & Hd & Hs).
    destruct r as [u|e]; [left; auto|].
    destruct (err_timeout e) as [[|]|te]; try (left; auto).
    unfold inv. simpl. auto.
  - destruct (main st) eqn:Hmain; try exact H.
    unfold inv in H. rewrite Hmain in H. destruct H as (Hl & Hd).
    left. auto.
Qed.

Lemma inv_run (inputs : list input) (st : state Transaction) :
  inv st -> inv (run' st inputs).
Proof.
  revert st. induction inputs as [|i rest IH]; intros st H; [exact H|].
  rewrite run_cons. apply IH, inv_step, H.
Qed.

Lemma inv_reachable (inputs : list input) : inv (run' init inputs).
Proof. apply inv_run, inv_init. Qed.

(** A settled call stays settled, and its trace is final. *)
Lemma settled_step (st : state Transaction) (c : completion TransactionSignature)
    (i : input) :
  inv st -> main st = Settled c ->
  main (step' st i) = Settled c /\ trace (step' st i) = trace st
  /\ done (step' st i) = done st.
Proof.
  intros Hinv Hmain. unfold inv in Hinv. rewrite Hmain in Hinv.
  unfold step. rewrite Hmain.
  destruct i as [r k|r k|k|r|r|o]; auto.
  2:{ destruct (record_answer_control st r) as (Hm & _ & Hd & Ht).
      now rewrite Hm, Hd, Ht. }
  destruct (loop st) as [|raw start|] eqn:Hloop; auto.
  destruct Hinv as [[_ Hd]|(? & _)]; [|congruence].
  destruct (loop_iteration_facts st raw start k) as (Hm' & Hd' & _ & _ & Hx).
  destruct (Hx Hd) as [Ht _]. rewrite Hm', Hd', Ht. auto.
Qed.

Lemma settled_run (post : list input) (st : state Transaction)
    (c : completion TransactionSignature) :
  inv st -> main st = Settled c ->
  main (run' st post) = Settled c /\ trace (run' st post) = trace st
  /\ done (run' st post) = done st.
Proof.
  revert st. induction post as [|i rest IH]; intros st Hinv Hmain; [auto|].
  rewrite run_cons.
  destruct (settled_step st c i Hinv Hmain) as (Hm & Ht & Hd).
  destruct (IH (step' st i) (inv_step st i Hinv) Hm) as (Hm' & Ht' & Hd').
  rewrite Hm', Ht', Hd', Ht, Hd. auto.
Qed.

(** [done] is only ever set when the call settles. *)
Lemma done_settled (st : state Transaction) :
  inv st -> done st = true -> exists c, main st = Settled c.
Proof.
  unfold inv. intros H Hd.
  destruct (main st) as [| | | |c]; try (destruct H as (? & ? & ?); congruence);
    try (destruct H as (? & ?); congruence).
  now exists c.
Qed.

(** While the simulation is awaited only its answer moves the call on. *)
Lemma simulation_pending (mid : list input) (st : state Transaction) :
  main st = AwaitingSimulation ->
  Forall (fun i => is_simulation_answer i = false) mid ->
  main (run' st mid) = AwaitingSimulation.
Proof.
  revert st. induction mid as [|i rest IH]; intros st Hmain Hmid; [exact Hmain|].
  inversion Hmid as [|? ? Hi Hrest]; subst.
  rewrite run_cons. apply IH; [|exact Hrest].
  unfold step. rewrite Hmain.
  destruct i as [r k|r k|k|r|r|o]; try exact Hmain; [| |discriminate].
  - destruct (loop st) as [|raw start|]; try exact Hmain.
    destruct (loop_iteration_facts st raw start k) as (Hm' & _). now rewrite Hm'.
  - destruct (record_answer_control st r) as (Hm' & _). now rewrite Hm'.
Qed.

(** The three ways the confirmation can end (lines 107-144). *)
Lemma confirmed_path (st : state Transaction) (txid : TransactionSignature)
    (u : unit) (post : list input) :
  inv st -> main st = AwaitingConfirmation txid ->
  let st' := run' st (Confirmation_settles (Returned u) :: post) in
  main st' = Settled (Returned txid) /\ done st' = true /\ trace st' = trace st.
Proof.
  intros Hinv Hmain st'. subst st'. rewrite run_cons.
  pose proof (inv_step st (Confirmation_settles (Returned u)) Hinv) as Hinv'.
  unfold step in *. rewrite Hmain in *.
  destruct (settled_run post _ _ Hinv' eq_refl) as (Hm & Ht & Hd).
  rewrite Hm, Ht, Hd. auto.
Qed.

Lemma timeout_path (st : state Transaction) (txid : TransactionSignature)
    (e : thrown) (post : list input) :
  inv st -> main st = AwaitingConfirmation txid -> err_timeout e = Returned true ->
  let st' := run' st (Confirmation_settles (Thrown e) :: post) in
  main st' = Settled (Thrown (ErrorObj "Timed out awaiting confirmation on transaction"))
  /\ done st' = true /\ trace st' = trace st.
Proof.
  intros Hinv Hmain He st'. subst st'. rewrite run_cons.
  pose proof (inv_step st (Confirmation_settles (Thrown e)) Hinv) as Hinv'.
  unfold step in *. rewrite Hmain, He in *.
  destruct (settled_run post _ _ Hinv' eq_refl) as (Hm & Ht & Hd).
  rewrite Hm, Ht, Hd. auto.
Qed.

Lemma rejected_path (st : state Transaction) (txid : TransactionSignature)
    (e : thrown) (mid : list input) (o : simulate_outcome) (post : list input) :
  inv st -> main st = AwaitingConfirmation txid -> err_timeout e = Returned false ->
  Forall (fun i => is_simulation_answer i = false) mid ->
  let st' := run' st (Confirmation_settles (Thrown e) :: mid
                        ++ Simulation_settles o :: post) in
  main st' = Settled (Thrown (diagnose (simulateResult_of o))) /\ done st' = true.
Proof.
  intros Hinv Hmain He Hmid st'. subst st'. rewrite run_cons, run_app, run_cons.
  set (st1 := step' st (Confirmation_settles (Thrown e))).
  assert (main st1 = AwaitingSimulation) as Hm1.
  { unfold st1, step. now rewrite Hmain, He. }
  assert (inv st1) as Hinv1 by (apply inv_step, Hinv).
  set (st2 := run' st1 mid).
  assert (main st2 = AwaitingSimulation) as Hm2 by (now apply simulation_pending).
  assert (inv st2) as Hinv2 by (apply inv_run, Hinv1).
  pose proof (inv_step st2 (Simulation_settles o) Hinv2) as Hinv3.
  unfold step in *. rewrite Hm2 in *.
  destruct (settled_run post _ _ Hinv3 eq_refl) as (Hm & _ & Hd).
  rewrite Hm, Hd. auto.
Qed.

(** A rejected confirmation ends in the diagnosis of the dry-run. *)
Lemma rejected_outcome (pre : list input) (txid : TransactionSignature) (e : thrown)
    (mid : list input) (o : simulate_outcome) (post : list input) :
  main (run' init pre) = AwaitingConfirmation txid ->
  err_timeout e = Returned false ->
  Forall (fun i => is_simulation_answer i = false) mid ->
  sendTransaction'
    (pre ++ Confirmation_settles (Thrown e) :: mid ++ Simulation_settles o :: post)
  = Some (Thrown (diagnose (simulateResult_of o))).
Proof.
  intros Hmain He Hmid. unfold sendTransaction, outcome. rewrite run_app.
  destruct (rejected_path _ txid e mid o post (inv_reachable pre) Hmain He Hmid)
    as (Hm & _).
  now rewrite Hm.
Qed.

(** The flag is only set after the confirmation has ended. *)
Lemma done_after_confirmation (pre : list input) :
  done (run' init pre) = true \/ main (run' init pre) = AwaitingSimulation ->
  exists pre1 r pre2 txid,
    pre = pre1 ++ Confirmation_settles r :: pre2
    /\ main (run' init pre1) = AwaitingConfirmation txid.
Proof.
  induction pre as [|i pre IH] using rev_ind.
  - simpl. intros [H|H]; discriminate.
  - rewrite run_app. simpl. set (st := run' init pre) in *. intros H.
    assert (done st = true \/ main st = AwaitingSimulation
            \/ (done st = false /\ main st <> AwaitingSimulation)) as [Hd|[Hm|[Hd Hm]]].
    { destruct (done st); auto. destruct (main st); auto; right; right; split; congruence. }
    + destruct (IH (or_introl Hd)) as (pre1 & r & pre2 & txid & -> & Hpc).
      exists pre1, r, (pre2 ++ [i]), txid. split; [|exact Hpc].
      now rewrite <- app_assoc.
    + destruct (IH (or_intror Hm)) as (pre1 & r & pre2 & txid & -> & Hpc).
      exists pre1, r, (pre2 ++ [i]), txid. split; [|exact Hpc].
      now rewrite <- app_assoc.
    + destruct i as [r k|r k|k|r|r|o];
        [| | |rewrite step_resend_answer in H| |]; try unfold step in H.
      * destruct (main st) eqn:E; try (destruct H; congruence).
        destruct r; [destruct (sign_and_serialize _ _ _ _)|]; simpl in H;
          destruct H; congruence.
      * destruct (main st) eqn:E; try (destruct H; congruence).
        destruct r; simpl in H; [|destruct H; congruence].
        match type of H with
        | context [loop_iteration ?t ?s ?r ?q ?c] =>
            destruct (loop_iteration_facts s r q c) as (_ & Hd' & _)
        end.
        simpl in Hd'. rewrite Hd' in H. destruct H; discriminate.
      * destruct (loop st) as [|raw start|]; try (destruct H; congruence).
        destruct (loop_iteration_facts st raw start k) as (Hm' & Hd' & _).
        rewrite Hm', Hd' in H. destruct H; congruence.
      * destruct (record_answer_control st r) as (Hm' & _ & Hd' & _).
        rewrite Hm', Hd' in H. destruct H; congruence.
      * destruct (main st) as [| |txid| |] eqn:E; try (destruct H; congruence).
        exists pre, r, [], txid. split; [reflexivity|exact E].
      * destruct (main st) eqn:E; try (destruct H; congruence).
Qed.

(** C2 (amended).  When the confirmation ends with a value whose [timeout]
    property is truthy, the call sets [done], which stops the resend loop,
    and fails with the fixed message "Timed out awaiting confirmation on
    transaction".  No dry-run is requested, so the message is never
    enriched. *)
Theorem C2_timeout_fails_without_diagnosis
    (pre : list input) (txid : TransactionSignature) (e : thrown) (post : list input) :
  main (run' init pre) = AwaitingConfirmation txid ->
  err_timeout e = Returned true ->
  let st := run' init (pre ++ Confirmation_settles (Thrown e) :: post) in
  sendTransaction' (pre ++ Confirmation_settles (Thrown e) :: post)
    = Some (Thrown (ErrorObj "Timed out awaiting confirmation on transaction"))
  /\ done st = true
  /\ simulations (trace st) = []
  /\ resends (trace st) = resends (trace (run' init pre)).
Proof.
  intros Hmain He st. subst st. unfold sendTransaction, outcome. rewrite run_app.
  pose proof (inv_reachable pre) as Hinv.
  destruct (timeout_path _ txid e post Hinv Hmain He) as (Hm & Hd & Ht).
  rewrite Hm, Hd, Ht. repeat split.
  unfold inv in Hinv. rewrite Hmain in Hinv. tauto.
Qed.

(** C3 (amended).  Once [done] is set the resend loop issues no further
    send: a timer that fires afterwards finds the flag at the loop head and
    leaves the trace as it is.  The flag is set on every path out of the
    [try], whether the call returns or throws; a call that ends before the
    loop was started has no loop to stop, and no send follows it either.
    The flag is set when the confirmation ends in success or in a time-out;
    when it ends in a rejection the flag stays unset while the dry-run is
    awaited and is set when the dry-run has ended. *)
Theorem C3_no_resend_once_done (pre post : list input) :
  let st := run' init pre in
  (done st = true ->
     resends (trace (run' st post)) = resends (trace st)
     /\ (forall clock_ms, trace (step' st (Timer_fires clock_ms)) = trace st)
     /\ exists pre1 r pre2 txid,
          pre = pre1 ++ Confirmation_settles r :: pre2
          /\ main (run' init pre1) = AwaitingConfirmation txid)
  /\ (forall c, main st = Settled c -> loop st <> LoopNotStarted -> done st = true)
  /\ (forall c, main st = Settled c ->
        resends (trace (run' st post)) = resends (trace st))
  /\ (forall txid r, main st = AwaitingConfirmation txid ->
        done (step' st (Confirmation_settles r))
        = match r with
          | Returned _ => true
          | Thrown e =>
              match err_timeout e with
              | Returned false => false
              | _ => true
              end
          end)
  /\ (main st = AwaitingSimulation ->
        done st = false /\ forall o, done (step' st (Simulation_settles o)) = true).
Proof.
  intros st. pose proof (inv_reachable pre) as Hinv. fold st in Hinv.
  assert (forall c, main st = Settled c ->
            resends (trace (run' st post)) = resends (trace st)) as Hfinal.
  { intros c Hc. destruct (settled_run post st c Hinv Hc) as (_ & Ht & _).
    now rewrite Ht. }
  split; [|split; [|split; [|split]]].
  - intros Hd. destruct (done_settled st Hinv Hd) as [c Hc].
    split; [exact (Hfinal c Hc)|]. split.
    + intros k. now destruct (settled_step st c (Timer_fires k) Hinv Hc) as (_ & Ht & _).
    + apply done_after_confirmation. now left.
  - intros c Hc Hl. unfold inv in Hinv. rewrite Hc in Hinv.
    destruct Hinv as [[_ Hd]|(? & _)]; [exact Hd|contradiction].
  - exact Hfinal.
  - intros txid r Hmain. unfold inv in Hinv. rewrite Hmain in Hinv.
    destruct Hinv as (_ & Hd & _). unfold step. rewrite Hmain.
    destruct r as [u|e]; [reflexivity|].
    destruct (err_timeout e) as [[|]|te]; simpl; auto.
  - intros Hmain. unfold inv in Hinv. rewrite Hmain in Hinv.
    destruct Hinv as (_ & Hd). split; [exact Hd|].
    intros o. unfold step. now rewrite Hmain.
Qed.

(** C4.  When the dry-run reports an error and log lines, the call fails
    with "Transaction failed: " followed by the extracted message, and the
    extracted message is the last line starting with "Program log: ",
    without that prefix; for the lines "Program log: A", "Program log: B",
    "Program log: C" it is "C". *)
Theorem C4_last_program_log_wins
    (pre : list input) (txid : TransactionSignature) (e : thrown)
    (mid : list input) (o : simulate_outcome) (post : list input)
    (r : SimulatedTransactionResponse) (ls : list string) (msg : string) :
  main (run' init pre) = AwaitingConfirmation txid ->
  err_timeout e = Returned false ->
  Forall (fun i => is_simulation_answer i = false) mid ->
  simulateResult_of o = Some r ->
  truthy (err r) = true ->
  logs r = Some ls ->
  last_program_log ls = Some msg ->
  sendTransaction'
    (pre ++ Confirmation_settles (Thrown e) :: mid ++ Simulation_settles o :: post)
    = Some (Thrown (ErrorObj ("Transaction failed: " +:+ msg)))
  /\ scan_logs ls (length ls) = Some (ErrorObj ("Transaction failed: " +:+ msg))
  /\ last_program_log ["Program log: A"; "Program log: B"; "Program log: C"] = Some "C".
Proof.
  intros Hmain He Hmid Ho Herr Hlogs Hlast.
  split; [|split; [|reflexivity]].
  - rewrite (rejected_outcome pre txid e mid o post Hmain He Hmid), Ho.
    now rewrite (diagnose_marked r ls msg).
  - rewrite scan_logs_find. unfold last_program_log in Hlast. fold marked in Hlast.
    destruct (List.find marked (rev ls)); simpl in *; [|discriminate].
    now inversion Hlast.
Qed.

(** C5 (amended).  When the dry-run reports a truthy error (not null, and
    not false, 0 or the empty string) and no log line starts with
    "Program log: " (or there are no log lines), the call fails with the
    JSON serialization of the raw error. *)
Theorem C5_raw_error_serialized
    (pre : list input) (txid : TransactionSignature) (e : thrown)
    (mid : list input) (o : simulate_outcome) (post : list input)
    (r : SimulatedTransactionResponse) :
  main (run' init pre) = AwaitingConfirmation txid ->
  err_timeout e = Returned false ->
  Forall (fun i => is_simulation_answer i = false) mid ->
  simulateResult_of o = Some r ->
  truthy (err r) = true ->
  match logs r with
  | Some ls => Forall (fun line => startsWith line program_log_marker = false) ls
  | None => True
  end ->
  sendTransaction'
    (pre ++ Confirmation_settles (Thrown e) :: mid ++ Simulation_settles o :: post)
    = Some (Thrown (ErrorObj (JSON_stringify (err r)))).
Proof.
  intros Hmain He Hmid Ho Herr Hlogs.
  rewrite (rejected_outcome pre txid e mid o post Hmain He Hmid), Ho.
  now rewrite (diagnose_unmarked r).
Qed.

(** C6.  When the dry-run cannot be performed (the simulation call
    throws), the call fails with the generic "Transaction failed",
    whatever the simulation threw. *)
Theorem C6_failed_dry_run_is_generic
    (pre : list input) (txid : TransactionSignature) (e : thrown)
    (mid : list input) (x : thrown) (post : list input) :
  main (run' init pre) = AwaitingConfirmation txid ->
  err_timeout e = Returned false ->
  Forall (fun i => is_simulation_answer i = false) mid ->
  sendTransaction'
    (pre ++ Confirmation_settles (Thrown e) :: mid
         ++ Simulation_settles (SimThrows x) :: post)
    = Some (Thrown (ErrorObj "Transaction failed")).
Proof.
  intros Hmain He Hmid.
  now rewrite (rejected_outcome pre txid e mid (SimThrows x) post Hmain He Hmid).
Qed.

(** C7 (amended).  When the confirmation is rejected and the diagnosis is
    inconclusive (the dry-run does not run, or reports no error), the call
    fails with the generic "Transaction failed", the same for every
    rejection value: the caller learns that the transaction failed, not
    what the rejection said. *)
Theorem C7_inconclusive_diagnosis_is_generic
    (pre : list input) (txid : TransactionSignature) (e : thrown)
    (mid : list input) (o : simulate_outcome) (post : list input) :
  main (run' init pre) = AwaitingConfirmation txid ->
  err_timeout e = Returned false ->
  Forall (fun i => is_simulation_answer i = false) mid ->
  match simulateResult_of o with
  | Some r => truthy (err r) = false
  | None => True
  end ->
  sendTransaction'
    (pre ++ Confirmation_settles (Thrown e) :: mid ++ Simulation_settles o :: post)
    = Some (Thrown (ErrorObj "Transaction failed")).
Proof.
  intros Hmain He Hmid Ho.
  rewrite (rejected_outcome pre txid e mid o post Hmain He Hmid).
  now rewrite diagnose_inconclusive.
Qed.

End SubmissionFacts.

(** ** The call on a host *)

Section HostFacts.

Context {Transaction Account : Type}.
Variable sign_and_serialize :
  Transaction -> Blockhash -> Account -> list Account -> completion RawTransaction.
Variable transaction : Transaction.
Variable payer : Account.
Variable additionalSigners : list Account.
Variable timeout : float.
Variable confirmLevel : TransactionConfirmationStatus.

Local Notation step' :=
  (step sign_and_serialize transaction payer additionalSigners timeout confirmLevel).
Local Notation run' :=
  (run sign_and_serialize transaction payer additionalSigners timeout confirmLevel).
Local Notation host_step' :=
  (host_step sign_and_serialize transaction payer additionalSigners timeout
     confirmLevel).
Local Notation host_run' :=
  (host_run sign_and_serialize transaction payer additionalSigners timeout
     confirmLevel).

Lemma host_run_app (policy : unhandled_rejections) (p : process Transaction)
    (a b : list input) :
  host_run' policy p (a ++ b) = host_run' policy (host_run' policy p a) b.
Proof. apply fold_left_app. Qed.

(** Only the answer to a resend is recorded. *)
Lemma step_resend_answers (st : state Transaction) (i : input) :
  resend_answers (step' st i)
  = match i with
    | Resend_settles r => resend_answers (record_answer st r)
    | _ => resend_answers st
    end.
Proof.
  destruct i as [r k|r k|k|r|r|o]; unfold step.
  - destruct (main st); try reflexivity.
    destruct r as [bh|e]; [|reflexivity].
    now destruct (sign_and_serialize _ _ _ _).
  - destruct (main st); try reflexivity.
    destruct r as [txid|e]; [|reflexivity].
    unfold loop_iteration. simpl. now destruct (loop_condition _ _ _ _).
  - assert (forall raw start,
              resend_answers (loop_iteration timeout st raw start k)
              = resend_answers st) as Hit.
    { intros raw start. unfold loop_iteration.
      now destruct (loop_condition _ _ _ _). }
    destruct (main st); destruct (loop st); auto.
  - now destruct (main st).
  - destruct (main st); try reflexivity.
    destruct r as [u|e]; [reflexivity|].
    now destruct (err_timeout e) as [[|]|te].
  - now destruct (main st).
Qed.

Lemma unhandled_step (st : state Transaction) (i : input) :
  is_rejected_resend i = false -> unhandled (step' st i) = unhandled st.
Proof.
  intros Hi. unfold unhandled. rewrite step_resend_answers.
  destruct i as [r k|r k|k|r|r|o]; try reflexivity.
  destruct r as [id|e]; [|discriminate].
  unfold record_answer. destruct (Nat.ltb _ _); [|reflexivity].
  simpl. rewrite omap_app. simpl. now rewrite app_nil_r.
Qed.

(** Where rejections are only reported the program runs on. *)
Lemma host_run_reported (inputs : list input) (st : state Transaction) :
  host_run' Reported (Running st) inputs = Running (run' st inputs).
Proof.
  revert st. induction inputs as [|i rest IH]; intros st; [reflexivity|].
  simpl. apply IH.
Qed.

(** Without a rejected resend the program runs on, on any host. *)
Lemma host_run_quiet (policy : unhandled_rejections) (inputs : list input)
    (st : state Transaction) :
  unhandled st = [] ->
  Forall (fun i => is_rejected_resend i = false) inputs ->
  host_run' policy (Running st) inputs = Running (run' st inputs)
  /\ unhandled (run' st inputs) = [].
Proof.
  revert st. induction inputs as [|i rest IH]; intros st Hst Hin; [auto|].
  inversion Hin as [|? ? Hi Hrest]; subst.
  pose proof (unhandled_step st i Hi) as Hstep. rewrite Hst in Hstep.
  assert (host_step' policy (Running st) i = Running (step' st i)) as Hhost.
  { unfold host_step. rewrite Hstep. now destruct policy. }
  change (host_run' policy (Running st) (i :: rest))
    with (host_run' policy (host_step' policy (Running st) i) rest).
  rewrite Hhost. apply IH; assumption.
Qed.

(** A result the call has delivered is not taken back, whatever the host
    does afterwards. *)
Lemma host_outcome_final (policy : unhandled_rejections) (post : list input)
    (p : process Transaction) (c : completion TransactionSignature) :
  inv (state_of p) -> main (state_of p) = Settled c ->
  outcome (state_of (host_run' policy p post)) = Some c.
Proof.
  revert p. induction post as [|i rest IH]; intros p Hinv Hmain.
  - unfold outcome. simpl. now rewrite Hmain.
  - change (host_run' policy p (i :: rest))
      with (host_run' policy (host_step' policy p i) rest).
    apply IH; destruct p as [st|st e]; simpl in *; try assumption.
    + assert (inv (step' st i)) as H by (now apply inv_step).
      destruct policy; [exact H|]. now destruct (unhandled (step' st i)).
    + destruct (settled_step sign_and_serialize transaction payer additionalSigners
                  timeout confirmLevel st c i Hinv Hmain) as (H & _).
      destruct policy; [exact H|]. now destruct (unhandled (step' st i)).
Qed.

(** Once the host has ended the program, the call is left as it was. *)
Lemma host_run_ended (policy : unhandled_rejections) (post : list input)
    (st : state Transaction) (e : thrown) :
  host_run' policy (Ended st e) post = Ended st e.
Proof. induction post as [|i rest IH]; [reflexivity|exact IH]. Qed.

(** A running program has met no rejection that is fatal to it. *)
Lemma running_unhandled (inputs : list input) (p : process Transaction)
    (st : state Transaction) :
  match p with Running st0 => unhandled st0 = [] | Ended _ _ => True end ->
  host_run' Fatal p inputs = Running st -> unhandled st = [].
Proof.
  revert p. induction inputs as [|i rest IH]; intros p Hp Hrun.
  - simpl in Hrun. subst p. exact Hp.
  - change (host_run' Fatal p (i :: rest))
      with (host_run' Fatal (host_step' Fatal p i) rest) in Hrun.
    apply (IH (host_step' Fatal p i)); [|exact Hrun].
    destruct p as [st0|st0 e]; simpl; [|exact I].
    now destruct (unhandled (step' st0 i)) eqn:E.
Qed.

(** C8.  The code departs from the claim where unhandled rejections are
    fatal.  The promise of a resend is dropped with no [await] and no
    [catch], so a resend that fails is an unhandled rejection: nothing in
    the call observes it (neither program counter, the flag nor the trace
    changes), but on a host that ends the process on an unhandled
    rejection the program ends there and the call never settles, whatever
    the node delivers afterwards, a successful confirmation included. *)
Theorem C8_rejected_resend_is_unhandled (pre post : list input)
    (st : state Transaction) (e : thrown) :
  host_run' Fatal (Running init) pre = Running st ->
  outcome st = None ->
  length (resend_answers st) < length (resends (trace st)) ->
  let st' := step' st (Resend_settles (Thrown e)) in
  (main st' = main st /\ loop st' = loop st /\ done st' = done st
   /\ trace st' = trace st)
  /\ unhandled st' = [e]
  /\ host_run' Fatal (Running init) (pre ++ Resend_settles (Thrown e) :: post)
     = Ended st' e
  /\ host_sendTransaction sign_and_serialize transaction payer additionalSigners
       timeout confirmLevel Fatal (pre ++ Resend_settles (Thrown e) :: post)
     = None.
Proof.
  intros Hrun Hout Hpending st'.
  assert (unhandled st = []) as Hnone.
  { apply (running_unhandled pre (Running init)); [reflexivity|exact Hrun]. }
  assert (st' = record_answer st (Thrown e)) as Hst'.
  { apply step_resend_answer. }
  destruct (record_answer_control st (Thrown e)) as (Hm & Hl & Hd & Ht).
  assert (unhandled st' = [e]) as Hun.
  { rewrite Hst'. unfold unhandled, record_answer in *.
    apply Nat.ltb_lt in Hpending. rewrite Hpending. simpl.
    rewrite omap_app, Hnone. reflexivity. }
  assert (host_run' Fatal (Running init) (pre ++ Resend_settles (Thrown e) :: post)
          = Ended st' e) as Hend.
  { rewrite host_run_app, Hrun.
    change (host_run' Fatal (Running st) (Resend_settles (Thrown e) :: post))
      with (host_run' Fatal (host_step' Fatal (Running st) (Resend_settles (Thrown e)))
              post).
    assert (host_step' Fatal (Running st) (Resend_settles (Thrown e)) = Ended st' e)
      as ->.
    { unfold host_step. fold st'. now rewrite Hun. }
    apply host_run_ended. }
  split; [rewrite Hst'; auto|]. split; [exact Hun|]. split; [exact Hend|].
  unfold host_sendTransaction. rewrite Hend. simpl.
  unfold outcome in *. rewrite Hst', Hm. exact Hout.
Qed.

End HostFacts.

(** ** The claims on a sample run *)

Example sample_start_awaits :
  main (sample_run init sample_start) = AwaitingConfirmation "sig"
  /\ trace (sample_run init sample_start)
     = [GetRecentBlockhash; SendRawTransaction "tx@bh"; Resend "tx@bh";
        AwaitConfirmation "sig" 30000 "confirmed"].
Proof. split; reflexivity. Qed.

Lemma C2_witness :
  sample_send (sample_start ++ Confirmation_settles (Thrown timeout_value)
                 :: [Timer_fires 1600])
  = Some (Thrown (ErrorObj "Timed out awaiting confirmation on transaction")).
Proof.
  exact (proj1 (C2_timeout_fails_without_diagnosis sample_sign "tx" "payer" [] 30000
                  "confirmed" sample_start "sig" timeout_value [Timer_fires 1600]
                  eq_refl eq_refl)).
Defined.

(** C2 as stated fails: the confirmation times out and the node would have
    answered a dry-run with a program log, yet no dry-run is requested and
    the error carries the bare time-out message. *)
Lemma C2_counterexample :
  sample_send timed_out_inputs
    = Some (Thrown (ErrorObj "Timed out awaiting confirmation on transaction"))
  /\ simulations (trace (sample_run init timed_out_inputs)) = []
  /\ diagnose (simulateResult_of specific_dry_run)
     = ErrorObj "Transaction failed: insufficient funds".
Proof. repeat split. Qed.

Lemma C3_witness :
  (done (sample_run init confirmed_inputs) = true
   /\ resends (trace (sample_run (sample_run init confirmed_inputs) late_inputs))
      = resends (trace (sample_run init confirmed_inputs)))
  /\ (done (sample_run init rejected_inputs) = false
      /\ done (sample_run init (rejected_inputs ++ [Simulation_settles specific_dry_run]))
         = true).
Proof.
  split.
  - split; [reflexivity|].
    destruct (C3_no_resend_once_done sample_sign "tx" "payer" [] 30000 "confirmed"
                confirmed_inputs late_inputs) as (H & _).
    exact (proj1 (H eq_refl)).
  - destruct (C3_no_resend_once_done sample_sign "tx" "payer" [] 30000 "confirmed"
                rejected_inputs []) as (_ & _ & _ & _ & H).
    destruct (H eq_refl) as [Hd Hs]. split; [exact Hd|].
    exact (Hs specific_dry_run).
Defined.

(** C3 as stated fails: the confirmation has ended in a rejection, a
    terminal outcome of the Watcher, yet [done] is unset while the dry-run
    is awaited, and a timer that fires then sends the transaction again. *)
Lemma C3_counterexample :
  main (sample_run init rejected_inputs) = AwaitingSimulation
  /\ done (sample_run init rejected_inputs) = false
  /\ resends (trace (sample_run init rejected_inputs)) = [Resend "tx@bh"]
  /\ resends (trace (sample_run init (rejected_inputs ++ [Timer_fires 1600])))
     = [Resend "tx@bh"; Resend "tx@bh"].
Proof. repeat split. Qed.

(** Between a rejection and the end of the dry-run the flag is still
    unset, and the loop keeps sending. *)
Example resend_during_dry_run :
  done (sample_run init rejected_inputs) = false
  /\ trace (sample_run (sample_run init rejected_inputs) [Timer_fires 1600])
     = trace (sample_run init rejected_inputs) ++ [Resend "tx@bh"].
Proof. split; reflexivity. Qed.

(** The first pass of the loop has resent; that resend fails before the
    confirmation resolves. *)
Lemma C8_witness :
  host_sendTransaction sample_sign "tx" "payer" [] 30000 "confirmed" Fatal
    (sample_start ++ Resend_settles (Thrown (ErrorObj "fetch failed"))
       :: [Timer_fires 1600; Confirmation_settles (Returned tt)])
  = None.
Proof.
  refine (proj2 (proj2 (proj2
            (C8_rejected_resend_is_unhandled sample_sign "tx" "payer" [] 30000
               "confirmed" sample_start
               [Timer_fires 1600; Confirmation_settles (Returned tt)]
               (sample_run init sample_start) (ErrorObj "fetch failed")
               eq_refl eq_refl _)))).
  simpl. lia.
Defined.

(** The same answers where the rejection is only reported: the loop sends
    again and the call returns the identifier. *)
Example rejected_resend_reported :
  host_sendTransaction sample_sign "tx" "payer" [] 30000 "confirmed" Reported
    (sample_start ++ Resend_settles (Thrown (ErrorObj "fetch failed"))
       :: [Timer_fires 1600; Confirmation_settles (Returned tt)])
  = Some (Returned "sig")
  /\ resends (trace (sample_run init
                       (sample_start ++ Resend_settles (Thrown (ErrorObj "fetch failed"))
                          :: [Timer_fires 1600; Confirmation_settles (Returned tt)])))
     = [Resend "tx@bh"; Resend "tx@bh"].
Proof. split; reflexivity. Qed.

Lemma C4_witness :
  sample_send (sample_start ++ Confirmation_settles (Thrown rejection_value)
                 :: [Timer_fires 1600; resend_failure]
                 ++ Simulation_settles (dry_run custom_error (Some abc_logs)) :: [])
  = Some (Thrown (ErrorObj "Transaction failed: C")).
Proof.
  refine (proj1 (C4_last_program_log_wins sample_sign "tx" "payer" [] 30000
                   "confirmed" sample_start "sig" rejection_value
                   [Timer_fires 1600; resend_failure]
                   (dry_run custom_error (Some abc_logs)) []
                   {| err := custom_error; logs := Some abc_logs |} abc_logs "C"
                   eq_refl eq_refl _ eq_refl eq_refl eq_refl eq_refl)).
  repeat constructor.
Defined.

Lemma C5_witness :
  sample_send (sample_start ++ Confirmation_settles (Thrown other_rejection)
                 :: [Timer_fires 1600]
                 ++ Simulation_settles (dry_run custom_error (Some plain_logs)) :: [])
  = Some (Thrown (ErrorObj (JSON_stringify custom_error))).
Proof.
  refine (C5_raw_error_serialized sample_sign "tx" "payer" [] 30000
            "confirmed" sample_start "sig" other_rejection [Timer_fires 1600]
            (dry_run custom_error (Some plain_logs)) []
            {| err := custom_error; logs := Some plain_logs |}
            eq_refl eq_refl _ eq_refl eq_refl _).
  - repeat constructor.
  - simpl. repeat constructor.
Defined.

(** C5 as stated fails: the empty string is a non-null error, no log line
    carries the marker, and the call fails with the generic message, not
    with the serialized error (two double quotes). *)
Lemma C5_counterexample :
  JStr "" <> JNull
  /\ Forall (fun line => startsWith line program_log_marker = false) plain_logs
  /\ sample_send (sample_start ++
                    [Confirmation_settles (Thrown rejection_value);
                     Simulation_settles (dry_run (JStr "") (Some plain_logs))])
     = Some (Thrown (ErrorObj "Transaction failed"))
  /\ JSON_stringify (JStr "") = String dquote (String dquote "")
  /\ JSON_stringify (JStr "") <> "Transaction failed".
Proof.
  split; [discriminate|]. split; [repeat constructor|].
  split; [reflexivity|]. split; [reflexivity|discriminate].
Qed.

Lemma C6_witness :
  sample_send (sample_start ++ Confirmation_settles (Thrown rejection_value)
                 :: [Timer_fires 1600]
                 ++ Simulation_settles
                      (SimThrows (ErrorObj "failed to simulate transaction: busy")) :: [])
  = Some (Thrown (ErrorObj "Transaction failed")).
Proof.
  refine (C6_failed_dry_run_is_generic sample_sign "tx" "payer" [] 30000
            "confirmed" sample_start "sig" rejection_value [Timer_fires 1600]
            (ErrorObj "failed to simulate transaction: busy") []
            eq_refl eq_refl _).
  repeat constructor.
Defined.

Lemma C7_witness :
  sample_send (sample_start ++ Confirmation_settles (Thrown rejection_value)
                 :: [] ++ Simulation_settles (dry_run JNull (Some plain_logs)) :: [])
  = Some (Thrown (ErrorObj "Transaction failed")).
Proof.
  refine (C7_inconclusive_diagnosis_is_generic sample_sign "tx" "payer" [] 30000
            "confirmed" sample_start "sig" rejection_value []
            (dry_run JNull (Some plain_logs)) [] eq_refl eq_refl _ eq_refl).
  constructor.
Defined.

(** C7 as stated fails: two different rejections, each followed by a
    dry-run that cannot run, reach the caller as the same generic error,
    which is neither rejection's serialization. *)
Lemma C7_counterexample :
  rejection_value <> other_rejection
  /\ sample_send (undiagnosed_inputs rejection_value)
     = Some (Thrown (ErrorObj "Transaction failed"))
  /\ sample_send (undiagnosed_inputs other_rejection)
     = Some (Thrown (ErrorObj "Transaction failed"))
  /\ JSON_stringify custom_error <> "Transaction failed"
  /\ JSON_stringify (JStr "AccountInUse") <> "Transaction failed".
Proof.
  split; [discriminate|]. split; [reflexivity|]. split; [reflexivity|].
  split; discriminate.
Qed.

(** ** [Promise.all] *)

Section PromiseAllFacts.

Context {V : Type}.
Implicit Types (slots : list (option V)) (st : all_state V).
Implicit Types (elements : list (option (completion V))).

Lemma holes_replicate (n : nat) : holes (replicate n (@None V)) = n.
Proof. induction n as [|n IH]; simpl; congruence. Qed.

Lemma holes_fill slots (i : nat) (v : V) :
  slots !! i = Some None ->
  holes slots = S (holes (<[i := Some v]> slots)).
Proof.
  revert i. induction slots as [|s rest IH]; intros i H; [discriminate|].
  destruct i as [|i]; simpl in *.
  - now inversion H.
  - destruct s; simpl; rewrite (IH i H); reflexivity.
Qed.

Lemma holes_some slots (k : nat) : slots !! k = Some None -> holes slots <> 0.
Proof.
  revert k. induction slots as [|s rest IH]; intros k H; [discriminate|].
  destruct k as [|k]; simpl in *.
  - inversion H. simpl. lia.
  - destruct s; simpl; [|lia]. now apply (IH k).
Qed.

Lemma holes_none slots :
  (forall i, i < length slots -> exists v, slots !! i = Some (Some v)) ->
  holes slots = 0.
Proof.
  induction slots as [|s rest IH]; intros H; [reflexivity|].
  destruct (H 0 ltac:(simpl; lia)) as [v Hv]. simpl in Hv. inversion Hv; subst.
  simpl. apply IH. intros i Hi. apply (H (S i)). simpl. lia.
Qed.

Lemma array_of_filled (vs : list V) : array_of (Some <$> vs) = vs.
Proof.
  unfold array_of. induction vs as [|v rest IH]; [reflexivity|].
  simpl. f_equal. exact IH.
Qed.

Lemma all_inv_init elements : all_inv elements (all_init (length elements)).
Proof.
  unfold all_inv, all_init. simpl. rewrite length_replicate, holes_replicate.
  repeat split.
  - intros i v H. apply lookup_replicate in H. destruct H; discriminate.
  - destruct (length elements); reflexivity.
Qed.

Lemma all_inv_event elements st (i : nat) :
  all_inv elements st ->
  (forall e, elements !! i <> Some (Some (Thrown e))) ->
  all_inv elements (all_event elements st i).
Proof.
  intros (Hlen & Hslots & Hrem & Hset) Hok. unfold all_event.
  destruct (elements !! i) as [[[v|e]|]|] eqn:Hi; try (now repeat split).
  2:{ now destruct (Hok e). }
  unfold all_settle.
  destruct (values st !! i) as [[w|]|] eqn:Hslot; try (now repeat split).
  pose proof (holes_fill _ i v Hslot) as Hh.
  assert (settled st = None) as Hnone.
  { rewrite Hset, Hrem, Hh. reflexivity. }
  unfold all_inv. simpl. rewrite length_insert, Hrem, Hh. simpl.
  repeat split; [exact Hlen| |].
  - intros j u Hj. destruct (decide (i = j)) as [->|Hne].
    + rewrite list_lookup_insert_eq in Hj by (now apply lookup_lt_Some in Hslot).
      now inversion Hj; subst.
    + rewrite list_lookup_insert_ne in Hj by exact Hne. now apply Hslots.
  - rewrite Hnone. now destruct (Nat.eqb _ 0).
Qed.

Lemma filled_event elements st (i j : nat) (v : V) :
  values st !! j = Some (Some v) ->
  values (all_event elements st i) !! j = Some (Some v).
Proof.
  intros Hj. unfold all_event.
  destruct (elements !! i) as [[[w|e]|]|]; try exact Hj.
  unfold all_settle.
  destruct (values st !! i) as [[u|]|] eqn:Hslot; try exact Hj.
  simpl. rewrite list_lookup_insert_ne; [exact Hj|]. congruence.
Qed.

Lemma fills_event elements st (i : nat) (v : V) :
  all_inv elements st ->
  elements !! i = Some (Some (Returned v)) ->
  values (all_event elements st i) !! i = Some (Some v).
Proof.
  intros (Hlen & Hslots & _) Hi. unfold all_event, all_settle. rewrite Hi.
  destruct (values st !! i) as [[u|]|] eqn:Hslot.
  - specialize (Hslots i u Hslot). rewrite Hi in Hslots. now inversion Hslots; subst.
  - simpl. apply list_lookup_insert_eq. now apply lookup_lt_Some in Hslot.
  - apply lookup_ge_None in Hslot. apply lookup_lt_Some in Hi. lia.
Qed.

Lemma settled_event elements st (i : nat) (c : completion (list V)) :
  settled st = Some c -> settled (all_event elements st i) = Some c.
Proof.
  intros H. unfold all_event.
  destruct (elements !! i) as [[[v|e]|]|]; try exact H; unfold all_settle.
  - destruct (values st !! i) as [[u|]|]; try exact H.
    simpl. rewrite H. now destruct (Nat.eqb _ 0).
  - simpl. now rewrite H.
Qed.

Lemma settled_events elements (order : list nat) st (c : completion (list V)) :
  settled st = Some c ->
  settled (fold_left (all_event elements) order st) = Some c.
Proof.
  revert st. induction order as [|i rest IH]; intros st H; [exact H|].
  simpl. apply IH, settled_event, H.
Qed.

(** As long as no element that settles rejects, the invariant is kept,
    filled slots stay filled, and every element that fulfilled has its
    slot filled. *)
Lemma fulfilling_events elements (order : list nat) st :
  all_inv elements st ->
  (forall i e, i ∈ order -> elements !! i <> Some (Some (Thrown e))) ->
  let st' := fold_left (all_event elements) order st in
  all_inv elements st'
  /\ (forall j v, values st !! j = Some (Some v) -> values st' !! j = Some (Some v))
  /\ (forall i v, i ∈ order -> elements !! i = Some (Some (Returned v)) ->
                  values st' !! i = Some (Some v)).
Proof.
  revert st. induction order as [|k rest IH]; intros st Hinv Hok; simpl.
  - split; [exact Hinv|]. split; [auto|]. intros i v Hi. inversion Hi.
  - assert (all_inv elements (all_event elements st k)) as Hinv'.
    { apply all_inv_event; [exact Hinv|]. intros e. apply Hok. left. }
    destruct (IH (all_event elements st k) Hinv') as (Hfin & Hkeep & Hfill).
    { intros i e Hi. apply Hok. now right. }
    split; [exact Hfin|]. split.
    + intros j v Hj. apply Hkeep. now apply filled_event.
    + intros i v Hi Hel. apply elem_of_cons in Hi as [->|Hi].
      * apply Hkeep. now apply fills_event.
      * now apply Hfill.
Qed.

(** Every element fulfils and settles: the values, in the order of the
    elements. *)
Lemma promise_all_fulfilled (vs : list V) (order : list nat) :
  (forall i, i < length vs -> i ∈ order) ->
  promise_all ((fun v => Some (Returned v)) <$> vs) order = Some (Returned vs).
Proof.
  intros Hcover. unfold promise_all.
  set (elements := (fun v => Some (Returned v)) <$> vs).
  destruct (fulfilling_events elements order _ (all_inv_init elements))
    as ((Hlen & _ & Hrem & Hset) & _ & Hfill).
  { intros i e _ H. unfold elements in H. rewrite list_lookup_fmap in H.
    destruct (vs !! i); discriminate. }
  set (st' := fold_left _ _ _) in *.
  assert (length elements = length vs) as Hn by apply length_fmap.
  assert (values st' = Some <$> vs) as Hvalues.
  { apply list_eq. intros i. rewrite list_lookup_fmap.
    destruct (vs !! i) as [v|] eqn:Hv; simpl.
    - apply Hfill; [apply Hcover; now apply lookup_lt_Some in Hv|].
      unfold elements. now rewrite list_lookup_fmap, Hv.
    - apply lookup_ge_None. apply lookup_ge_None in Hv. lia. }
  rewrite Hset, Hrem, Hvalues, array_of_filled.
  rewrite holes_none; [reflexivity|].
  intros i Hi. rewrite length_fmap in Hi.
  destruct (lookup_lt_is_Some_2 vs i Hi) as [v Hv].
  exists v. now rewrite list_lookup_fmap, Hv.
Qed.

(** The first element to reject decides. *)
Lemma promise_all_first_rejection elements (pre post : list nat) (k : nat) (e : thrown) :
  elements !! k = Some (Some (Thrown e)) ->
  (forall i e', i ∈ pre -> elements !! i <> Some (Some (Thrown e'))) ->
  promise_all elements (pre ++ k :: post) = Some (Thrown e).
Proof.
  intros Hk Hpre. unfold promise_all. rewrite fold_left_app. simpl.
  destruct (fulfilling_events elements pre _ (all_inv_init elements) Hpre)
    as ((Hlen & Hslots & Hrem & Hset) & _ & _).
  set (st := fold_left _ pre _) in *.
  apply settled_events.
  assert (values st !! k = Some None) as Hslot.
  { destruct (values st !! k) as [[v|]|] eqn:Hv; [|reflexivity|].
    - specialize (Hslots k v Hv). congruence.
    - apply lookup_ge_None in Hv. apply lookup_lt_Some in Hk. lia. }
  assert (settled st = None) as Hnone.
  { rewrite Hset, Hrem. pose proof (holes_some _ k Hslot) as Hh.
    destruct (holes (values st)); [contradiction|reflexivity]. }
  unfold all_event, all_settle. rewrite Hk. simpl. now rewrite Hnone.
Qed.


Lemma holes_zero_filled slots : holes slots = 0 -> slots = Some <$> array_of slots.
Proof.
  unfold array_of. induction slots as [|s rest IH]; intros H; [reflexivity|].
  destruct s as [v|]; simpl in *; [|discriminate].
  f_equal. now apply IH.
Qed.

Lemma all_wf_init elements : all_wf elements (all_init (length elements)).
Proof.
  unfold all_wf, all_init. simpl. rewrite length_replicate, holes_replicate.
  repeat split.
  - intros i v H. apply lookup_replicate in H. destruct H; discriminate.
  - destruct (length elements); [reflexivity|discriminate].
  - destruct (length elements) eqn:E; [|discriminate].
    inversion H. reflexivity.
Qed.

Lemma all_wf_event elements st (i : nat) :
  all_wf elements st -> all_wf elements (all_event elements st i).
Proof.
  intros (Hlen & Hslots & Hrem & Hset).
  pose proof (conj Hlen (conj Hslots (conj Hrem Hset))) as Hwf.
  unfold all_event.
  destruct (elements !! i) as [[[v|e]|]|] eqn:Hi; try exact Hwf; unfold all_settle.
  - destruct (values st !! i) as [[w|]|] eqn:Hslot; try exact Hwf.
    pose proof (holes_fill _ i v Hslot) as Hh.
    unfold all_wf. simpl. rewrite length_insert, Hrem, Hh. simpl.
    split; [exact Hlen|]. split; [|split; [reflexivity|]].
    + intros j u Hj. destruct (decide (i = j)) as [->|Hne].
      * rewrite list_lookup_insert_eq in Hj by (now apply lookup_lt_Some in Hslot).
        now inversion Hj; subst.
      * rewrite list_lookup_insert_ne in Hj by exact Hne. now apply Hslots.
    + intros vs Hvs.
      assert (forall ws, settled st <> Some (Returned ws)) as Hnot.
      { intros ws Hws. destruct (Hset ws Hws) as [Hz _]. lia. }
      destruct (Nat.eqb (holes (<[i:=Some v]> (values st))) 0) eqn:Hz.
      * destruct (settled st) as [[ws|e]|] eqn:Hold; simpl in Hvs.
        -- now destruct (Hnot ws).
        -- discriminate.
        -- inversion Hvs. split; [now apply Nat.eqb_eq|reflexivity].
      * now destruct (Hnot vs).
  - unfold all_wf. simpl. repeat split; auto.
    + destruct (settled st) as [c|] eqn:Hold; simpl in H; [|discriminate].
      now apply (Hset vs).
    + destruct (settled st) as [c|] eqn:Hold; simpl in H; [|discriminate].
      now apply (Hset vs).
Qed.

Lemma all_wf_events elements (order : list nat) st :
  all_wf elements st -> all_wf elements (fold_left (all_event elements) order st).
Proof.
  revert st. induction order as [|i rest IH]; intros st H; [exact H|].
  simpl. apply IH, all_wf_event, H.
Qed.

(** [Promise.all] fulfils only when every element has fulfilled, and then
    with the elements' values in their order. *)
Lemma promise_all_returned elements (order : list nat) (vs : list V) :
  promise_all elements order = Some (Returned vs) ->
  elements = (fun v => Some (Returned v)) <$> vs.
Proof.
  unfold promise_all. intros H.
  destruct (all_wf_events elements order _ (all_wf_init elements))
    as (Hlen & Hslots & _ & Hset).
  set (st := fold_left _ _ _) in *.
  destruct (Hset vs H) as [Hz Hvs].
  pose proof (holes_zero_filled _ Hz) as Hfilled. rewrite <- Hvs in Hfilled.
  apply list_eq. intros i. rewrite list_lookup_fmap.
  destruct (vs !! i) as [v|] eqn:Hv; simpl.
  - apply Hslots. now rewrite Hfilled, list_lookup_fmap, Hv.
  - apply lookup_ge_None. apply lookup_ge_None in Hv.
    rewrite <- Hlen, Hfilled, length_fmap. exact Hv.
Qed.

(** The settle order either meets no rejection, or has a first one. *)
Lemma first_rejection elements (order : list nat) :
  (forall i e, i ∈ order -> elements !! i <> Some (Some (Thrown e)))
  \/ (exists pre k post e,
        order = pre ++ k :: post
        /\ elements !! k = Some (Some (Thrown e))
        /\ forall i e', i ∈ pre -> elements !! i <> Some (Some (Thrown e'))).
Proof.
  induction order as [|k rest IH].
  - left. intros i e Hi. inversion Hi.
  - destruct (elements !! k) as [[[v|e]|]|] eqn:Hk.
    2:{ right. exists [], k, rest, e. split; [reflexivity|]. split; [exact Hk|].
        intros i e' Hi. inversion Hi. }
    all: destruct IH as [Hnone|(pre & j & post & e & -> & Hj & Hpre)].
    all: try (left; intros i e Hi; apply elem_of_cons in Hi as [->|Hi];
              [congruence|now apply Hnone]).
    all: right; exists (k :: pre), j, post, e; split; [reflexivity|];
      split; [exact Hj|];
      intros i e' Hi; apply elem_of_cons in Hi as [->|Hi];
      [congruence|now apply Hpre].
Qed.

(** When every element settles, so does [Promise.all]. *)
Lemma promise_all_settles elements (order : list nat) :
  (forall i, i < length elements -> i ∈ order) ->
  (forall i, i < length elements -> exists r, elements !! i = Some (Some r)) ->
  exists c, promise_all elements order = Some c.
Proof.
  intros Hcover Hall.
  destruct (first_rejection elements order)
    as [Hnone|(pre & k & post & e & -> & Hk & Hpre)].
  - unfold promise_all.
    destruct (fulfilling_events elements order _ (all_inv_init elements) Hnone)
      as ((Hlen & _ & Hrem & Hset) & _ & Hfill).
    set (st := fold_left _ _ _) in *.
    rewrite Hset, Hrem, holes_none; [eauto|].
    intros i Hi. rewrite Hlen in Hi.
    destruct (Hall i Hi) as [[v|e] Hr].
    + exists v. apply Hfill; [now apply Hcover|exact Hr].
    + now destruct (Hnone i e (Hcover i Hi)).
  - exists (Thrown e). now apply promise_all_first_rejection.
Qed.

End PromiseAllFacts.

(** ** The batch *)

Section BatchFacts.

Context {Transaction Account : Type}.
Variable sign_and_serialize :
  Transaction -> Blockhash -> Account -> list Account -> completion RawTransaction.
Variable payer : Account.
Variable additionalSigners : list Account.
Variable timeout : float.
Variable confirmLevel : TransactionConfirmationStatus.

(** C1 (amended).  [sendTransactions] starts one [sendTransaction] per entry,
    each fed by its own answers.  When every entry returns its identifier
    the call returns the identifiers, one per entry, in input order.  When
    exactly one entry, at index k, fails and the others return, the call
    as a whole fails with the error of entry k: the caller receives that
    one error and no identifier. *)
Theorem C1_batch_returns_all_or_fails
    (transactions : list Transaction) (answers : nat -> list input)
    (order : list nat) :
  let entries := submissions sign_and_serialize transactions payer additionalSigners
                   timeout confirmLevel answers in
  let out := sendTransactions sign_and_serialize transactions payer additionalSigners
               timeout confirmLevel answers order in
  length entries = length transactions
  /\ (forall i tx, transactions !! i = Some tx ->
        entries !! i = Some (sendTransaction sign_and_serialize tx payer
                               additionalSigners timeout confirmLevel (answers i)))
  /\ (forall ids,
        entries = (fun id => Some (Returned id)) <$> ids ->
        (forall i, i < length transactions -> i ∈ order) ->
        out = Some (Returned ids) /\ length ids = length transactions)
  /\ (forall k e,
        entries !! k = Some (Some (Thrown e)) ->
        (forall i e', i <> k -> entries !! i <> Some (Some (Thrown e'))) ->
        k ∈ order ->
        out = Some (Thrown e)
        /\ identifiers_received out = []
        /\ failures_received out = [e]).
Proof.
  intros entries out.
  assert (length entries = length transactions) as Hlen by apply length_imap.
  split; [exact Hlen|]. split; [|split].
  - intros i tx Hi. unfold entries, submissions. now rewrite list_lookup_imap, Hi.
  - intros ids Hids Hcover.
    assert (length ids = length transactions) as Hn.
    { rewrite <- Hlen, Hids. now rewrite length_fmap. }
    split; [|exact Hn].
    unfold out, sendTransactions. fold entries. rewrite Hids.
    apply promise_all_fulfilled. intros i Hi. apply Hcover. lia.
  - intros k e Hk Hothers Hin.
    assert (out = Some (Thrown e)) as Hout.
    { destruct (list_elem_of_split_l order k Hin) as (pre & post & -> & Hpre).
      unfold out, sendTransactions. fold entries.
      apply promise_all_first_rejection; [exact Hk|].
      intros i e' Hi. apply Hothers. intros ->. contradiction. }
    rewrite Hout. auto.
Qed.

End BatchFacts.

Lemma C1_witness :
  sample_sendTransactions [2; 0; 1] = Some (Thrown (ErrorObj "Transaction failed"))
  /\ identifiers_received (sample_sendTransactions [2; 0; 1]) = []
  /\ failures_received (sample_sendTransactions [2; 0; 1])
     = [ErrorObj "Transaction failed"].
Proof.
  destruct (C1_batch_returns_all_or_fails sample_sign "payer" [] 30000 "confirmed"
              sample_batch sample_answers [2; 0; 1]) as (_ & _ & _ & H).
  apply (H 1 (ErrorObj "Transaction failed")).
  - reflexivity.
  - intros i e' Hi. destruct i as [|[|[|i]]]; try discriminate. congruence.
  - apply list_elem_of_In. simpl. auto.
Defined.

(** C1 as stated fails: of three submissions the second is rejected and
    the other two return their identifiers, yet the caller of
    [sendTransactions] receives the error alone, whatever the order in
    which the three settle, and no identifier. *)
Lemma C1_counterexample :
  sample_submissions
  = [Some (Returned "sig"); Some (Thrown (ErrorObj "Transaction failed"));
     Some (Returned "sig")]
  /\ sample_sendTransactions [0; 1; 2] = Some (Thrown (ErrorObj "Transaction failed"))
  /\ sample_sendTransactions [1; 2; 0] = Some (Thrown (ErrorObj "Transaction failed"))
  /\ sample_sendTransactions [2; 0; 1] = Some (Thrown (ErrorObj "Transaction failed"))
  /\ identifiers_received (sample_sendTransactions [0; 1; 2]) = []
  /\ length (identifiers_received (sample_sendTransactions [0; 1; 2])) <> 2.
Proof. repeat split; discriminate. Qed.

(** ** Methods without a body *)

(** C9.  [placePerpOrder] and [cancelPerpOrder] fail with the error
    "Not Implemented" on every call, send nothing to the node, leave the
    client as it is, and never return an identifier. *)
Theorem C9_perp_orders_not_implemented (Connection Req : Type)
    (this : MerpsClient Connection) :
  result (placePerpOrder (Req := Req) this) = Thrown (ErrorObj "Not Implemented")
  /\ requests (placePerpOrder (Req := Req) this) = []
  /\ this_after (placePerpOrder (Req := Req) this) = this
  /\ result (cancelPerpOrder (Req := Req) this) = Thrown (ErrorObj "Not Implemented")
  /\ requests (cancelPerpOrder (Req := Req) this) = []
  /\ this_after (cancelPerpOrder (Req := Req) this) = this
  /\ (forall ids, result (placePerpOrder (Req := Req) this) <> Returned ids)
  /\ (forall ids, result (cancelPerpOrder (Req := Req) this) <> Returned ids).
Proof. repeat split; discriminate. Qed.

(** ** Account readers *)

Section AccountFacts.

Context {Decoded RootBank MerpsGroup MerpsAccount : Type}.
Variable RootBankLayout_decode : option Buffer -> completion Decoded.
Variable MerpsGroupLayout_decode : option Buffer -> completion Decoded.
Variable MerpsAccountLayout_decode : option Buffer -> completion Decoded.
Variable new_RootBank : Decoded -> RootBank.
Variable new_MerpsGroup : PublicKey -> Decoded -> MerpsGroup.
Variable new_MerpsAccount : PublicKey -> Decoded -> MerpsAccount.
Variable loadOpenOrders : MerpsAccount -> PublicKey -> completion MerpsAccount.
Variable getAccountInfo : PublicKey -> completion (option AccountInfo).

Local Notation parse := (parse_root_bank RootBankLayout_decode new_RootBank).
Local Notation loadRootBanks' :=
  (loadRootBanks RootBankLayout_decode new_RootBank getAccountInfo).

Lemma map_throwing_returned {A B : Type} (f : A -> completion B) (xs : list A)
    (ys : list B) (x : A) :
  map_throwing f xs = Returned ys -> x ∈ xs -> exists y, f x = Returned y.
Proof.
  revert ys. induction xs as [|a rest IH]; intros ys H Hx; [inversion Hx|].
  simpl in H. destruct (f a) as [b|e] eqn:Ha; simpl in H; [|discriminate].
  destruct (map_throwing f rest) as [bs|e] eqn:Hrest; simpl in H; [|discriminate].
  apply elem_of_cons in Hx as [->|Hx]; [eauto|]. now apply (IH bs).
Qed.

(** With a null among accounts that otherwise decode, the map ends in the
    failed read of [data]. *)
Lemma map_throwing_null (accounts : list (option AccountInfo)) :
  None ∈ accounts ->
  (forall acc, Some acc ∈ accounts ->
               exists d, RootBankLayout_decode (Some (data acc)) = Returned d) ->
  map_throwing parse accounts = Thrown (TypeErrorObj "data").
Proof.
  induction accounts as [|a rest IH]; intros Hnull Hdec; [inversion Hnull|].
  destruct a as [acc|]; [|reflexivity].
  apply elem_of_cons in Hnull as [Heq|Hnull]; [discriminate|].
  destruct (Hdec acc ltac:(left)) as [d Hd].
  simpl. unfold parse_root_bank at 1. simpl. rewrite Hd. simpl.
  rewrite IH; [reflexivity|exact Hnull|].
  intros acc' Hacc'. apply Hdec. now right.
Qed.

(** The value a lookup returns, null when it fails. *)
Lemma lookups_returned (rootBanks : list PublicKey) :
  (forall pk, pk ∈ rootBanks -> exists a, getAccountInfo pk = Returned a) ->
  exists accounts,
    List.map (fun pk => Some (getAccountInfo pk)) rootBanks
    = (fun a => Some (Returned a)) <$> accounts
    /\ forall a, a ∈ accounts ->
                 exists pk, pk ∈ rootBanks /\ getAccountInfo pk = Returned a.
Proof.
  induction rootBanks as [|pk rest IH]; intros H.
  - exists []. split; [reflexivity|]. intros a Ha. inversion Ha.
  - destruct (H pk ltac:(left)) as [a Ha].
    destruct IH as (accounts & Heq & Hsrc); [intros pk' Hpk'; apply H; now right|].
    exists (a :: accounts). split; [simpl; now rewrite Ha, Heq|].
    intros b Hb. apply elem_of_cons in Hb as [->|Hb].
    + exists pk. split; [left|exact Ha].
    + destruct (Hsrc b Hb) as (pk' & Hpk' & Hb'). exists pk'. split; [now right|exact Hb'].
Qed.

(** C10.  When the lookup of a requested root bank returns null,
    [loadRootBanks] returns no list, partial or whole; once every lookup
    has settled it has failed, and when the other lookups return accounts
    that decode, the failure is the read of [data] on null.  [getMerpsGroup]
    and [getMerpsAccount] instead hand [undefined] to the layout decoder,
    and end as the decoder does. *)
Theorem C10_null_root_bank_fails (rootBanks : list PublicKey) (order : list nat)
    (pk : PublicKey) :
  pk ∈ rootBanks ->
  getAccountInfo pk = Returned None ->
  (forall banks, loadRootBanks' rootBanks order <> Some (Returned banks))
  /\ ((forall i, i < length rootBanks -> i ∈ order) ->
        exists e, loadRootBanks' rootBanks order = Some (Thrown e))
  /\ ((forall i, i < length rootBanks -> i ∈ order) ->
      (forall pk', pk' ∈ rootBanks ->
         getAccountInfo pk' = Returned None
         \/ exists acc d, getAccountInfo pk' = Returned (Some acc)
                          /\ RootBankLayout_decode (Some (data acc)) = Returned d) ->
      loadRootBanks' rootBanks order = Some (Thrown (TypeErrorObj "data")))
  /\ getMerpsGroup MerpsGroupLayout_decode new_MerpsGroup getAccountInfo pk
     = (decoded <- MerpsGroupLayout_decode None ;; Returned (new_MerpsGroup pk decoded))
  /\ (forall dexProgramId,
        getMerpsAccount MerpsAccountLayout_decode new_MerpsAccount loadOpenOrders
          getAccountInfo pk dexProgramId
        = (decoded <- MerpsAccountLayout_decode None ;;
           loadOpenOrders (new_MerpsAccount pk decoded) dexProgramId)).
Proof.
  intros Hpk Hnull.
  assert (forall banks, loadRootBanks' rootBanks order <> Some (Returned banks)) as Hnot.
  { intros banks H. unfold loadRootBanks in H.
    destruct (promise_all _ order) as [[accounts|e]|] eqn:Hall; try discriminate.
    apply promise_all_returned in Hall.
    assert (None ∈ accounts) as Hin.
    { apply list_elem_of_lookup_1 in Hpk as [i Hi].
      apply (f_equal (fun l => l !! i)) in Hall.
      rewrite list_lookup_fmap in Hall.
      change (List.map ?f ?l) with (f <$> l) in Hall.
      rewrite list_lookup_fmap, Hi in Hall. simpl in Hall. rewrite Hnull in Hall.
      destruct (accounts !! i) as [a|] eqn:Ha; simpl in Hall; [|discriminate].
      inversion Hall; subst. now apply list_elem_of_lookup_2 in Ha. }
    inversion H as [Hmap].
    destruct (map_throwing_returned _ _ _ None Hmap Hin) as [y Hy]. discriminate. }
  split; [exact Hnot|]. split; [|split; [|split]].
  - intros Hcover.
    destruct (promise_all_settles
                (List.map (fun pk => Some (getAccountInfo pk)) rootBanks) order)
      as [c Hc].
    + intros i Hi. apply Hcover. now rewrite length_map in Hi.
    + intros i Hi. rewrite length_map in Hi.
      destruct (lookup_lt_is_Some_2 rootBanks i Hi) as [pk' Hpk'].
      exists (getAccountInfo pk').
      change (List.map ?f ?l) with (f <$> l). now rewrite list_lookup_fmap, Hpk'.
    + pose proof (Hnot) as Hnot'. unfold loadRootBanks in *. rewrite Hc in *.
      destruct c as [accounts|e]; [|eauto].
      destruct (map_throwing parse accounts) as [banks|e]; [|eauto].
      now destruct (Hnot' banks).
  - intros Hcover Hothers.
    destruct (lookups_returned rootBanks) as (accounts & Heq & Hsrc).
    { intros pk' Hpk'. destruct (Hothers pk' Hpk') as [H|(acc & d & H & _)]; eauto. }
    unfold loadRootBanks. rewrite Heq, promise_all_fulfilled.
    + f_equal. apply map_throwing_null.
      * apply list_elem_of_lookup_1 in Hpk as [i Hi].
        apply (f_equal (fun l => l !! i)) in Heq.
        change (List.map ?f ?l) with (f <$> l) in Heq.
        rewrite !list_lookup_fmap, Hi in Heq. simpl in Heq. rewrite Hnull in Heq.
        destruct (accounts !! i) as [a|] eqn:Ha; simpl in Heq; [|discriminate].
        inversion Heq; subst. now apply list_elem_of_lookup_2 in Ha.
      * intros acc Hacc. destruct (Hsrc _ Hacc) as (pk' & Hpk' & Hget).
        destruct (Hothers pk' Hpk') as [H|(acc' & d & H & Hd)]; [congruence|].
        rewrite Hget in H. inversion H; subst. eauto.
    + intros i Hi. apply Hcover.
      apply (f_equal length) in Heq. rewrite length_map, length_fmap in Heq. lia.
  - unfold getMerpsGroup. now rewrite Hnull.
  - intros dex. unfold getMerpsAccount. now rewrite Hnull.
Qed.

End AccountFacts.

Lemma C10_witness :
  sample_loadRootBanks ["bankA"; "missing"] [1; 0] = Some (Thrown (TypeErrorObj "data")).
Proof.
  destruct (C10_null_root_bank_fails sample_decode sample_decode sample_decode
              id (fun _ d => d) (fun _ d => d) (fun a _ => Returned a)
              sample_getAccountInfo ["bankA"; "missing"] [1; 0] "missing")
    as (_ & _ & H & _).
  - apply list_elem_of_In. simpl. auto.
  - reflexivity.
  - apply H.
    + intros i Hi. apply list_elem_of_In. simpl in *.
      destruct i as [|[|i]]; [auto|auto|lia].
    + intros pk' Hpk'. apply list_elem_of_In in Hpk'. simpl in Hpk'.
      destruct Hpk' as [<-|[<-|[]]].
      * right. exists {| data := "A" |}, "A". split; reflexivity.
      * left. reflexivity.
Defined.

(** A present root bank is read; an absent group reaches the decoder. *)
Example loadRootBanks_present :
  sample_loadRootBanks ["bankA"] [0] = Some (Returned ["A"]).
Proof. reflexivity. Qed.

Example getMerpsGroup_absent :
  getMerpsGroup sample_decode (fun _ d => d) sample_getAccountInfo "missing"
  = Thrown (ErrorObj "decode: no buffer").
Proof. reflexivity. Qed.

(** * Further facts *)

(** ** The request protocol of one call *)

Section ProtocolFacts.

Context {Transaction Account : Type}.
Variable sign_and_serialize :
  Transaction -> Blockhash -> Account -> list Account -> completion RawTransaction.
Variable transaction : Transaction.
Variable payer : Account.
Variable additionalSigners : list Account.
Variable timeout : float.
Variable confirmLevel : TransactionConfirmationStatus.

Local Notation step' :=
  (step sign_and_serialize transaction payer additionalSigners timeout confirmLevel).
Local Notation run' :=
  (run sign_and_serialize transaction payer additionalSigners timeout confirmLevel).
Local Notation sendTransaction' :=
  (sendTransaction sign_and_serialize transaction payer additionalSigners timeout
     confirmLevel).
Local Notation at_stage' := (at_stage transaction timeout confirmLevel).
Local Notation protocol_trace' := (protocol_trace transaction timeout confirmLevel).

Lemma at_stage_init : at_stage' init Asked.
Proof. repeat split. now left. Qed.

Lemma at_stage_timer (st : state Transaction) (s : stage) (clock_ms : float) :
  at_stage' st s ->
  exists s', at_stage' (step' st (Timer_fires clock_ms)) s' /\ stage_raw s' = stage_raw s.
Proof.
  intros Hat. pose proof Hat as [Htrace Hs].
  assert (step' st (Timer_fires clock_ms)
          = match loop st with
            | LoopSleeping raw start => loop_iteration timeout st raw start clock_ms
            | _ => st
            end) as Hstep.
  { unfold step. now destruct (main st). }
  rewrite Hstep. clear Hstep.
  destruct (loop st) as [|raw start|] eqn:Hloop; try (exists s; now split).
  unfold loop_iteration.
  destruct (loop_condition _ _ _ _).
  - destruct s as [|raw0|raw0 txid a b|raw0 txid a b c]; simpl in Hs.
    + destruct Hs as [Hl _]. congruence.
    + destruct Hs as [Hl _]. congruence.
    + destruct Hs as (Ha & [Hl|[s0 Hl]] & Hm); [congruence|].
      assert (raw0 = raw) as -> by congruence.
      exists (Awaited raw txid a (S b)). split; [|reflexivity]. split; simpl.
      * change (trace st ++ [Resend raw] = protocol_trace' (Awaited raw txid a (S b))).
        rewrite Htrace. unfold protocol_trace. rewrite replicate_S_end.
        now rewrite <- !app_assoc.
      * split; [exact Ha|]. split; [right; eauto|exact Hm].
    + destruct Hs as (Ha & [Hl|[s0 Hl]] & Hm); [congruence|].
      assert (raw0 = raw) as -> by congruence.
      exists (Simulated raw txid a b (S c)). split; [|reflexivity]. split; simpl.
      * change (trace st ++ [Resend raw]
                = protocol_trace' (Simulated raw txid a b (S c))).
        rewrite Htrace. unfold protocol_trace. rewrite (replicate_S_end c).
        now rewrite <- !app_assoc.
      * split; [exact Ha|]. split; [right; eauto|exact Hm].
  - exists s. split; [|reflexivity]. split; [exact Htrace|].
    destruct s as [|raw0|raw0 txid a b|raw0 txid a b c]; simpl in *.
    + destruct Hs as [Hl _]. congruence.
    + destruct Hs as [Hl _]. congruence.
    + destruct Hs as (Ha & _ & Hm). split; [exact Ha|]. split; [now left|exact Hm].
    + destruct Hs as (Ha & _ & Hm). split; [exact Ha|]. split; [now left|exact Hm].
Qed.

Local Notation serialized s :=
  (forall raw, stage_raw s = Some raw ->
     exists blockhash,
       sign_and_serialize transaction blockhash payer additionalSigners = Returned raw).

Lemma at_stage_timer_raw (st : state Transaction) (s : stage) (clock_ms : float) :
  at_stage' st s -> serialized s ->
  exists s', at_stage' (step' st (Timer_fires clock_ms)) s' /\ serialized s'.
Proof.
  intros Hat Hraw.
  destruct (at_stage_timer st s clock_ms Hat) as (s' & Hs' & Heq).
  exists s'. split; [exact Hs'|]. now rewrite Heq.
Qed.

Lemma at_stage_record_answer (st : state Transaction) (s : stage)
    (r : completion TransactionSignature) :
  at_stage' st s -> serialized s ->
  exists s', at_stage' (step' st (Resend_settles r)) s' /\ serialized s'.
Proof.
  intros Hat Hraw. rewrite step_resend_answer.
  exists s. split; [|exact Hraw].
  destruct (record_answer_control st r) as (Hm & Hl & _ & Ht).
  unfold at_stage. rewrite Hm, Hl, Ht. exact Hat.
Qed.

Lemma at_stage_step (st : state Transaction) (s : stage) (i : input) :
  at_stage' st s -> serialized s ->
  exists s', at_stage' (step' st i) s' /\ serialized s'.
Proof.
  intros Hat Hraw.
  destruct i as [r k|r k|k|r|r|o];
    [| |exact (at_stage_timer_raw st s k Hat Hraw)
     |exact (at_stage_record_answer st s r Hat Hraw)| |].
  all: assert (forall st', st' = st -> exists s', at_stage' st' s' /\ serialized s')
         as Hsame by (intros st' ->; eauto).
  all: pose proof Hat as [Htrace Hs]; unfold step.
  - destruct (main st) as [|raw start|txid| |c] eqn:Hmain; try (now apply Hsame).
    assert (s = Asked) as ->.
    { destruct s; simpl in Hs; [reflexivity| | |].
      - destruct Hs as (_ & [[? H]|[? H]]); congruence.
      - destruct Hs as (_ & _ & [H|[H|[? H]]]); congruence.
      - destruct Hs as (_ & _ & [H|[? H]]); congruence. }
    destruct Hs as [Hl _].
    destruct r as [bh|e].
    + destruct (sign_and_serialize transaction bh payer additionalSigners)
        as [raw|e] eqn:Hsign.
      * exists (Sent raw). split.
        -- split; simpl; [now rewrite Htrace|]. split; [exact Hl|left; eauto].
        -- intros raw' Hr. inversion Hr; subst. eauto.
      * exists Asked. split; [|exact Hraw].
        split; simpl; [exact Htrace|]. split; [exact Hl|right; eauto].
    + exists Asked. split; [|exact Hraw].
      split; simpl; [exact Htrace|]. split; [exact Hl|right; eauto].
  - destruct (main st) as [|raw start|txid| |c] eqn:Hmain; try (now apply Hsame).
    assert (s = Sent raw) as ->.
    { destruct s; simpl in Hs.
      - destruct Hs as (_ & [H|[? H]]); congruence.
      - destruct Hs as (_ & [[? H]|[? H]]); congruence.
      - destruct Hs as (_ & _ & [H|[H|[? H]]]); congruence.
      - destruct Hs as (_ & _ & [H|[? H]]); congruence. }
    destruct Hs as [Hl _].
    destruct r as [txid|e].
    + unfold loop_iteration. simpl.
      destruct (loop_condition _ _ _ _); simpl.
      * exists (Awaited raw txid 1 0). split; [|exact Hraw].
        split; simpl; [now rewrite Htrace|].
        split; [lia|]. split; [right; eauto|now left].
      * exists (Awaited raw txid 0 0). split; [|exact Hraw].
        split; simpl; [now rewrite Htrace|].
        split; [lia|]. split; [now left|now left].
    + exists (Sent raw). split; [|exact Hraw].
      split; simpl; [exact Htrace|]. split; [exact Hl|right; eauto].
  - destruct (main st) as [|raw start|txid| |c] eqn:Hmain; try (now apply Hsame).
    destruct s as [|raw|raw txid' a b|raw txid' a b c]; simpl in Hs.
    + destruct Hs as (_ & [H|[? H]]); congruence.
    + destruct Hs as (_ & [[? H]|[? H]]); congruence.
    + destruct Hs as (Ha & Hl & Hm).
      assert (txid' = txid) as ->.
      { destruct Hm as [H|[H|[? H]]]; congruence. }
      assert (forall c, (forall id, c = Returned id -> id = txid) ->
                exists s', at_stage' (finish st c) s' /\ serialized s') as Hfin.
      { intros c Hc. exists (Awaited raw txid a b). split; [|exact Hraw].
        split; simpl; [exact Htrace|]. split; [exact Ha|]. split; [exact Hl|].
        destruct c as [id|e']; [|right; right; eauto].
        right. left. now rewrite (Hc id eq_refl). }
      destruct r as [u|e]; [apply Hfin; congruence|].
      destruct (err_timeout e) as [[|]|te]; try (apply Hfin; congruence).
      exists (Simulated raw txid a b 0). split; [|exact Hraw].
      split; simpl.
      * rewrite Htrace. simpl. now rewrite <- !app_assoc.
      * split; [exact Ha|]. split; [exact Hl|now left].
    + destruct Hs as (_ & _ & [H|[? H]]); congruence.
  - destruct (main st) as [|raw start|txid| |c] eqn:Hmain; try (now apply Hsame).
    destruct s as [|raw|raw txid' a b|raw txid' a b c]; simpl in Hs.
    + destruct Hs as (_ & [H|[? H]]); congruence.
    + destruct Hs as (_ & [[? H]|[? H]]); congruence.
    + destruct Hs as (_ & _ & [H|[H|[? H]]]); congruence.
    + destruct Hs as (Ha & Hl & Hm).
      exists (Simulated raw txid' a b c). split; [|exact Hraw].
      split; simpl; [exact Htrace|]. split; [exact Ha|]. split; [exact Hl|eauto].
Qed.

Lemma at_stage_run (inputs : list input) (st : state Transaction) (s : stage) :
  at_stage' st s -> serialized s ->
  exists s', at_stage' (run' st inputs) s' /\ serialized s'.
Proof.
  revert st s. induction inputs as [|i rest IH]; intros st s Hat Hraw; [eauto|].
  destruct (at_stage_step st s i Hat Hraw) as (s1 & Hat1 & Hraw1).
  apply (IH _ s1 Hat1 Hraw1).
Qed.

(** X1.  Whatever the node delivers, the requests of one call follow one
    protocol: the blockhash is asked for once; the transaction is signed
    and serialized once and those bytes are sent; every resend carries the
    same bytes; at most one resend precedes the wait for confirmation; and
    there is at most one dry-run, of the transaction passed in, requested
    only after the confirmation was awaited. *)
Theorem request_protocol (inputs : list input) :
  exists s,
    trace (run' init inputs) = protocol_trace' s
    /\ match s with
       | Awaited _ _ early _ | Simulated _ _ early _ _ => early <= 1
       | _ => True
       end
    /\ forall raw, stage_raw s = Some raw ->
         exists blockhash,
           sign_and_serialize transaction blockhash payer additionalSigners
           = Returned raw.
Proof.
  destruct (at_stage_run inputs init Asked at_stage_init) as (s & [Htrace Hs] & Hraw).
  { intros raw H. discriminate. }
  exists s. split; [exact Htrace|]. split; [|exact Hraw].
  destruct s; simpl in Hs; tauto.
Qed.

(** X2.  An identifier the call returns is the one whose confirmation
    was awaited, and a call that returns has requested no dry-run. *)
Theorem returned_identifier_was_awaited (inputs : list input)
    (id : TransactionSignature) :
  sendTransaction' inputs = Some (Returned id) ->
  exists raw early later,
    trace (run' init inputs) = protocol_trace' (Awaited raw id early later)
    /\ simulations (trace (run' init inputs)) = [].
Proof.
  unfold sendTransaction, outcome. intros H.
  destruct (main (run' init inputs)) as [| | | |c] eqn:Hmain; try discriminate.
  inversion H; subst.
  destruct (at_stage_run inputs init Asked at_stage_init) as (s & [Htrace Hs] & _).
  { intros raw Hr. discriminate. }
  destruct s as [|raw|raw txid a b|raw txid a b k]; simpl in Hs.
  - destruct Hs as (_ & [Hm|[e Hm]]); congruence.
  - destruct Hs as (_ & [[? Hm]|[e Hm]]); congruence.
  - destruct Hs as (_ & _ & [Hm|[Hm|[e Hm]]]); try congruence.
    assert (txid = id) as -> by congruence.
    exists raw, a, b. split; [exact Htrace|].
    rewrite Htrace. unfold protocol_trace, simulations.
    rewrite !List.filter_app. simpl.
    assert (forall n, List.filter is_simulate (replicate n (@Resend Transaction raw)) = [])
      as Hrep by (induction n; simpl; auto).
    now rewrite !Hrep.
  - destruct Hs as (_ & _ & [Hm|[e Hm]]); congruence.
Qed.

(** X3.  When the blockhash cannot be fetched, or signing and serializing
    throws, the call fails with that error and nothing is sent: the only
    request is the one for the blockhash. *)
Theorem no_send_without_signed_bytes (r : completion Blockhash) (e : thrown)
    (clock_ms : float) (post : list input) :
  r = Thrown e
  \/ (exists blockhash,
        r = Returned blockhash
        /\ sign_and_serialize transaction blockhash payer additionalSigners = Thrown e) ->
  sendTransaction' (Blockhash_settles r clock_ms :: post) = Some (Thrown e)
  /\ trace (run' init (Blockhash_settles r clock_ms :: post)) = [GetRecentBlockhash].
Proof.
  intros H. unfold sendTransaction, outcome. rewrite run_cons.
  assert (step' init (Blockhash_settles r clock_ms) = abort init e) as ->.
  { unfold step. simpl. destruct H as [->|(bh & -> & Hs)]; [reflexivity|].
    now rewrite Hs. }
  destruct (settled_run sign_and_serialize transaction payer additionalSigners timeout
              confirmLevel post (abort init e) (Thrown e)) as (Hm & Ht & _).
  - right. repeat split.
  - reflexivity.
  - rewrite Hm, Ht. split; reflexivity.
Qed.

(** X4.  A failure of the first send, unlike one of a resend, ends the
    call: it fails with that error, the resend loop is never started, the
    confirmation is never awaited and [done] is never set. *)
Theorem first_send_failure_is_fatal (blockhash : Blockhash) (raw : RawTransaction)
    (e : thrown) (clock1 clock2 : float) (post : list input) :
  sign_and_serialize transaction blockhash payer additionalSigners = Returned raw ->
  let st := run' init (Blockhash_settles (Returned blockhash) clock1
                         :: FirstSend_settles (Thrown e) clock2 :: post) in
  outcome st = Some (Thrown e)
  /\ trace st = [GetRecentBlockhash; SendRawTransaction raw]
  /\ loop st = LoopNotStarted
  /\ done st = false.
Proof.
  intros Hsign st. subst st. rewrite !run_cons.
  set (st2 := step' (step' init _) _).
  assert (st2 = {| main := Settled (Thrown e); loop := LoopNotStarted; done := false;
                   trace := [GetRecentBlockhash; SendRawTransaction raw];
                   resend_answers := [] |}) as Hst2.
  { unfold st2, step. simpl. rewrite Hsign. reflexivity. }
  assert (inv st2) as Hinv by (rewrite Hst2; right; repeat split).
  destruct (settled_run sign_and_serialize transaction payer additionalSigners timeout
              confirmLevel post st2 (Thrown e) Hinv) as (Hm & Ht & Hd).
  { now rewrite Hst2. }
  unfold outcome. rewrite Hm, Ht, Hd, Hst2. simpl. repeat split.
  pose proof (inv_run sign_and_serialize transaction payer additionalSigners timeout
                confirmLevel post st2 Hinv) as Hinv'.
  unfold inv in Hinv'. rewrite Hm, Hd in Hinv'.
  destruct Hinv' as [[_ H]|[H _]]; [rewrite Hst2 in H; discriminate|].
  rewrite <- Hst2. exact H.
Qed.

(** X5.  A call settles once: after it has returned or thrown, nothing the
    node delivers changes its result or adds a request. *)
Theorem outcome_is_final (pre post : list input) (c : completion TransactionSignature) :
  sendTransaction' pre = Some c ->
  sendTransaction' (pre ++ post) = Some c
  /\ trace (run' init (pre ++ post)) = trace (run' init pre).
Proof.
  unfold sendTransaction, outcome. intros H. rewrite run_app.
  destruct (main (run' init pre)) as [| | | |c'] eqn:Hmain; try discriminate.
  inversion H; subst.
  destruct (settled_run sign_and_serialize transaction payer additionalSigners timeout
              confirmLevel post _ c
              (inv_reachable sign_and_serialize transaction payer additionalSigners
                 timeout confirmLevel pre) Hmain) as (Hm & Ht & _).
  now rewrite Hm, Ht.
Qed.

Lemma noise_keeps_main (noise : list input) (st : state Transaction) :
  Forall (fun i => is_noise i = true) noise -> main (run' st noise) = main st.
Proof.
  revert st. induction noise as [|i rest IH]; intros st H; [reflexivity|].
  inversion H as [|? ? Hi Hrest]; subst. rewrite run_cons, (IH _ Hrest).
  destruct i as [r k|r k|k|r|r|o]; try discriminate; unfold step.
  - destruct (loop st) as [|raw start|]; try (now destruct (main st)).
    destruct (loop_iteration_facts timeout st raw start k) as (Hm & _).
    destruct (main st); exact Hm.
  - destruct (record_answer_control st r) as (Hm & _).
    destruct (main st); exact Hm.
Qed.

(** X6.  When the blockhash arrives, signing succeeds, the first send is
    answered with an identifier and the confirmation resolves, the call
    returns that identifier, however many timers fire and resends are
    answered in between and whatever arrives afterwards, provided that on
    a host where an unhandled rejection is fatal no resend is rejected
    before the confirmation resolves. *)
Theorem confirmed_submission_returns (policy : unhandled_rejections)
    (blockhash : Blockhash) (raw : RawTransaction)
    (txid : TransactionSignature) (clock1 clock2 : float) (u : unit)
    (noise1 noise2 post : list input) :
  sign_and_serialize transaction blockhash payer additionalSigners = Returned raw ->
  Forall (fun i => is_noise i = true) noise1 ->
  Forall (fun i => is_noise i = true) noise2 ->
  (policy = Fatal ->
   Forall (fun i => is_rejected_resend i = false) (noise1 ++ noise2)) ->
  host_sendTransaction sign_and_serialize transaction payer additionalSigners
    timeout confirmLevel policy
    (Blockhash_settles (Returned blockhash) clock1 :: noise1
       ++ FirstSend_settles (Returned txid) clock2 :: noise2
       ++ Confirmation_settles (Returned u) :: post)
  = Some (Returned txid).
Proof.
  intros Hsign Hn1 Hn2 Hquiet.
  set (pre := Blockhash_settles (Returned blockhash) clock1 :: noise1
                ++ FirstSend_settles (Returned txid) clock2 :: noise2).
  assert (main (run' init pre) = AwaitingConfirmation txid) as Hmain.
  { unfold pre. rewrite run_cons, run_app, run_cons, (noise_keeps_main noise2 _ Hn2).
    set (st1 := run' (step' init _) noise1).
    assert (main st1 = AwaitingFirstSend raw (getUnixTs clock1)) as H1.
    { unfold st1. rewrite (noise_keeps_main noise1 _ Hn1). unfold step. simpl.
      now rewrite Hsign. }
    unfold step. now rewrite H1. }
  destruct (confirmed_path sign_and_serialize transaction payer additionalSigners
              timeout confirmLevel (run' init pre) txid u []
              (inv_reachable sign_and_serialize transaction payer additionalSigners
                 timeout confirmLevel pre) Hmain) as (Hm & _).
  rewrite <- run_app in Hm.
  assert (host_run sign_and_serialize transaction payer additionalSigners timeout
            confirmLevel policy (Running init)
            (pre ++ [Confirmation_settles (Returned u)])
          = Running (run' init (pre ++ [Confirmation_settles (Returned u)]))) as Hhost.
  { destruct policy; [apply host_run_reported|].
    apply host_run_quiet; [reflexivity|].
    specialize (Hquiet eq_refl). apply Forall_app in Hquiet as [Hq1 Hq2].
    unfold pre. apply Forall_app. split.
    - constructor; [reflexivity|].
      apply Forall_app. split; [exact Hq1|]. constructor; [reflexivity|exact Hq2].
    - constructor; [reflexivity|constructor]. }
  unfold host_sendTransaction.
  replace (Blockhash_settles (Returned blockhash) clock1 :: noise1
             ++ FirstSend_settles (Returned txid) clock2 :: noise2
             ++ Confirmation_settles (Returned u) :: post)
    with ((pre ++ [Confirmation_settles (Returned u)]) ++ post).
  - rewrite host_run_app, Hhost.
    apply host_outcome_final; [apply inv_reachable|exact Hm].
  - unfold pre. simpl. rewrite <- !app_assoc. reflexivity.
Qed.

Lemma exited_step (st : state Transaction) (i : input) :
  inv st -> loop st = LoopExited ->
  loop (step' st i) = LoopExited /\ resends (trace (step' st i)) = resends (trace st).
Proof.
  intros Hinv Hl.
  destruct i as [r k|r k|k|r|r|o];
    [| | |rewrite step_resend_answer;
          destruct (record_answer_control st r) as (_ & Hl' & _ & Ht');
          now rewrite Hl', Ht'| |].
  all: unfold inv in Hinv; unfold step.
  all: destruct (main st) as [|raw start|txid| |c];
    try (destruct Hinv as (H & _); congruence);
    rewrite ?Hl; auto.
  - destruct r as [u|e]; [auto|].
    destruct (err_timeout e) as [[|]|te]; simpl; auto.
    split; [reflexivity|]. unfold resends. rewrite List.filter_app. simpl.
    now rewrite app_nil_r.
Qed.

Lemma exited_run (post : list input) (st : state Transaction) :
  inv st -> loop st = LoopExited ->
  loop (run' st post) = LoopExited
  /\ resends (trace (run' st post)) = resends (trace st).
Proof.
  revert st. induction post as [|i rest IH]; intros st Hinv Hl; [auto|].
  rewrite run_cons. destruct (exited_step st i Hinv Hl) as [Hl' Hr'].
  destruct (IH (step' st i)) as [Hl2 Hr2];
    [now apply inv_step|exact Hl'|].
  rewrite Hl2, Hr2, Hr'. auto.
Qed.

(** X7.  Leaving the resend loop is final.  Once a timer finds the loop
    condition false, because the deadline has passed or [done] is set, the
    loop has ended and no resend follows, whatever the clock reads later
    and whether or not the confirmation has ended. *)
Theorem resend_loop_exit_is_final (pre : list input) (raw : RawTransaction)
    (startTime : float) (clock_ms : float) (post : list input) :
  let st := run' init pre in
  loop st = LoopSleeping raw startTime ->
  loop_condition timeout (done st) startTime clock_ms = false ->
  loop (step' st (Timer_fires clock_ms)) = LoopExited
  /\ loop (run' st (Timer_fires clock_ms :: post)) = LoopExited
  /\ resends (trace (run' st (Timer_fires clock_ms :: post))) = resends (trace st).
Proof.
  intros st Hl Hcond.
  assert (step' st (Timer_fires clock_ms)
          = {| main := main st; loop := LoopExited; done := done st;
               trace := trace st; resend_answers := resend_answers st |}) as Hstep.
  { unfold step. rewrite Hl. unfold loop_iteration. rewrite Hcond.
    now destruct (main st). }
  split; [now rewrite Hstep|].
  rewrite run_cons.
  assert (inv (step' st (Timer_fires clock_ms))) as Hinv.
  { apply inv_step. apply inv_reachable. }
  destruct (exited_run post _ Hinv) as [Hx Hr]; [now rewrite Hstep|].
  rewrite Hx, Hr, Hstep. split; reflexivity.
Qed.

End ProtocolFacts.

Lemma returned_identifier_was_awaited_witness :
  exists raw early later,
    trace (sample_run init noisy_inputs)
    = protocol_trace "tx" 30000 "confirmed" (Awaited raw "sig" early later)
    /\ simulations (trace (sample_run init noisy_inputs)) = [].
Proof.
  exact (returned_identifier_was_awaited sample_sign "tx" "payer" [] 30000 "confirmed"
           noisy_inputs "sig" eq_refl).
Defined.

Lemma no_send_without_signed_bytes_witness :
  sample_send (Blockhash_settles (Thrown (ErrorObj "fetch failed")) 1000
                 :: sample_late)
  = Some (Thrown (ErrorObj "fetch failed"))
  /\ trace (sample_run init (Blockhash_settles (Thrown (ErrorObj "fetch failed")) 1000
                               :: sample_late))
     = [GetRecentBlockhash].
Proof.
  apply (no_send_without_signed_bytes sample_sign "tx" "payer" [] 30000 "confirmed").
  left. reflexivity.
Defined.

Lemma first_send_failure_is_fatal_witness :
  outcome (sample_run init
             (Blockhash_settles (Returned "bh") 1000
                :: FirstSend_settles (Thrown (ErrorObj "fetch failed")) 1300
                :: sample_late))
  = Some (Thrown (ErrorObj "fetch failed")).
Proof.
  exact (proj1 (first_send_failure_is_fatal sample_sign "tx" "payer" [] 30000
                  "confirmed" "bh" "tx@bh" (ErrorObj "fetch failed") 1000 1300
                  sample_late eq_refl)).
Defined.

Lemma outcome_is_final_witness :
  sample_send (confirmed_inputs ++ sample_late) = Some (Returned "sig").
Proof.
  exact (proj1 (outcome_is_final sample_sign "tx" "payer" [] 30000 "confirmed"
                  confirmed_inputs sample_late (Returned "sig") eq_refl)).
Defined.

Lemma confirmed_submission_returns_witness :
  host_sendTransaction sample_sign "tx" "payer" [] 30000 "confirmed" Fatal
    (Blockhash_settles (Returned "bh") 1000 :: [Timer_fires 1100]
       ++ FirstSend_settles (Returned "sig") 1300
       :: [Timer_fires 1600; Resend_settles (Returned "sig"); Timer_fires 1900]
       ++ Confirmation_settles (Returned tt) :: sample_late)
  = Some (Returned "sig").
Proof.
  refine (confirmed_submission_returns sample_sign "tx" "payer" [] 30000 "confirmed"
            Fatal "bh" "tx@bh" "sig" 1000 1300 tt [Timer_fires 1100]
            [Timer_fires 1600; Resend_settles (Returned "sig"); Timer_fires 1900]
            sample_late eq_refl _ _ _); repeat constructor.
Defined.

Lemma resend_loop_exit_is_final_witness :
  resends (trace (sample_run (sample_run init sample_start)
                    (Timer_fires 40000 :: sample_late)))
  = resends (trace (sample_run init sample_start)).
Proof.
  exact (proj2 (proj2 (resend_loop_exit_is_final sample_sign "tx" "payer" [] 30000
                         "confirmed" sample_start "tx@bh" (getUnixTs 1000) 40000
                         sample_late eq_refl eq_refl))).
Defined.

(** ** The diagnosis *)

(** X8.  The diagnosis always ends in an [Error] object, never in a failed
    read: its message is the generic "Transaction failed", or
    "Transaction failed: " followed by what a marked line of the dry-run's
    log says, or the serialization of the dry-run's truthy error. *)
Theorem diagnose_is_an_error (simulateResult : option SimulatedTransactionResponse) :
  diagnose simulateResult = ErrorObj "Transaction failed"
  \/ (exists r ls line,
        simulateResult = Some r /\ truthy (err r) = true /\ logs r = Some ls
        /\ line ∈ ls /\ startsWith line program_log_marker = true
        /\ diagnose simulateResult
           = ErrorObj ("Transaction failed: "
                         +:+ slice (String.length program_log_marker) line))
  \/ (exists r,
        simulateResult = Some r /\ truthy (err r) = true
        /\ diagnose simulateResult = ErrorObj (JSON_stringify (err r))).
Proof.
  destruct simulateResult as [r|]; [|now left].
  unfold diagnose. destruct (truthy (err r)) eqn:Herr; [|now left].
  destruct (logs r) as [ls|] eqn:Hlogs; [|right; right; eauto].
  rewrite scan_logs_find.
  destruct (List.find marked (rev ls)) as [line|] eqn:Hfind; simpl.
  - right. left. apply List.find_some in Hfind as [Hin Hmarked].
    exists r, ls, line. repeat split; auto.
    apply list_elem_of_In. now apply in_rev.
  - right. right. eauto.
Qed.

Lemma find_skips_unmarked (skipped rest : list string) :
  Forall (fun line => marked line = false) skipped ->
  List.find marked (skipped ++ rest) = List.find marked rest.
Proof.
  induction 1 as [|line more Hline _ IH]; simpl; [reflexivity|].
  now rewrite Hline.
Qed.

Lemma marker_round_trip (m : string) :
  startsWith (program_log_marker +:+ m) program_log_marker = true
  /\ slice (String.length program_log_marker) (program_log_marker +:+ m) = m.
Proof.
  split.
  - unfold startsWith, program_log_marker. simpl.
    repeat (destruct (ascii_dec _ _) as [_|Hne]; [|now destruct Hne]).
    now destruct m.
  - reflexivity.
Qed.

(** X9.  A log line made of the marker "Program log: " and a text is read
    back as that text, and it decides the message whenever no later line is
    marked, whatever the earlier lines are. *)
Theorem last_marked_line_decides (ls tail : list string) (m : string) :
  Forall (fun line => startsWith line program_log_marker = false) tail ->
  last_program_log (ls ++ (program_log_marker +:+ m) :: tail) = Some m
  /\ scan_logs (ls ++ (program_log_marker +:+ m) :: tail)
       (length (ls ++ (program_log_marker +:+ m) :: tail))
     = Some (ErrorObj ("Transaction failed: " +:+ m)).
Proof.
  intros Htail.
  destruct (marker_round_trip m) as [Hstart Hslice].
  assert (List.find marked (rev (ls ++ (program_log_marker +:+ m) :: tail))
          = Some (program_log_marker +:+ m)) as Hfind.
  { rewrite rev_app_distr. simpl. rewrite <- app_assoc.
    rewrite find_skips_unmarked by (now apply List.Forall_rev).
    simpl. fold (marked (program_log_marker +:+ m)). unfold marked. now rewrite Hstart. }
  split.
  - unfold last_program_log. fold marked. rewrite Hfind.
    unfold option_map. now rewrite Hslice.
  - rewrite scan_logs_find, Hfind. unfold option_map, log_error. now rewrite Hslice.
Qed.

Lemma last_marked_line_decides_witness :
  last_program_log (["Program log: early"; "Program 1111 invoke [1]"]
                      ++ (program_log_marker +:+ "Custom error 0x1") :: plain_logs)
  = Some "Custom error 0x1".
Proof.
  refine (proj1 (last_marked_line_decides
                   ["Program log: early"; "Program 1111 invoke [1]"] plain_logs
                   "Custom error 0x1" _)).
  repeat constructor.
Defined.

(** ** The batch, further *)

Lemma promise_all_pending {V : Type} (elements : list (option (completion V)))
    (order : list nat) (k : nat) :
  elements !! k = Some None ->
  (forall i e, elements !! i <> Some (Some (Thrown e))) ->
  promise_all elements order = None.
Proof.
  intros Hk Hnone. unfold promise_all.
  destruct (fulfilling_events elements order _ (all_inv_init elements))
    as ((Hlen & Hslots & Hrem & Hset) & _ & _).
  { intros i e _. apply Hnone. }
  set (st := fold_left _ _ _) in *.
  assert (values st !! k = Some None) as Hslot.
  { destruct (values st !! k) as [[v|]|] eqn:Hv; [|reflexivity|].
    - specialize (Hslots k v Hv). congruence.
    - apply lookup_ge_None in Hv. apply lookup_lt_Some in Hk. lia. }
  rewrite Hset, Hrem. pose proof (holes_some _ k Hslot) as Hh.
  destruct (holes (values st)); [contradiction|reflexivity].
Qed.

Lemma promise_all_empty {V : Type} (order : list nat) :
  promise_all (@nil (option (completion V))) order = Some (Returned []).
Proof. unfold promise_all. now apply settled_events. Qed.

Section BatchFurther.

Context {Transaction Account : Type}.
Variable sign_and_serialize :
  Transaction -> Blockhash -> Account -> list Account -> completion RawTransaction.
Variable payer : Account.
Variable additionalSigners : list Account.
Variable timeout : float.
Variable confirmLevel : TransactionConfirmationStatus.

Local Notation submissions' :=
  (submissions sign_and_serialize).
Local Notation sendTransactions' :=
  (sendTransactions sign_and_serialize).
Local Notation sendTransaction' :=
  (sendTransaction sign_and_serialize).

(** X10.  When [sendTransactions] returns, every entry has returned: the
    result has one identifier per transaction, and the identifier at each
    index is the one the submission of that transaction returned. *)
Theorem batch_returned_means_all_confirmed
    (transactions : list Transaction) (answers : nat -> list input)
    (order : list nat) (ids : list TransactionSignature) :
  sendTransactions' transactions payer additionalSigners timeout confirmLevel
    answers order = Some (Returned ids) ->
  length ids = length transactions
  /\ forall i tx, transactions !! i = Some tx ->
       exists id, ids !! i = Some id
         /\ sendTransaction' tx payer additionalSigners timeout confirmLevel
              (answers i) = Some (Returned id).
Proof.
  unfold sendTransactions. intros H. apply promise_all_returned in H.
  assert (length ids = length transactions) as Hlen.
  { apply (f_equal length) in H. unfold submissions in H.
    rewrite length_imap, length_fmap in H. congruence. }
  split; [exact Hlen|].
  intros i tx Hi. apply (f_equal (fun l => l !! i)) in H.
  unfold submissions in H. rewrite list_lookup_imap, Hi, list_lookup_fmap in H.
  simpl in H. destruct (ids !! i) as [id|]; simpl in H; [|discriminate].
  exists id. split; [reflexivity|]. congruence.
Qed.

(** X11.  When several entries fail, the caller receives the error of the
    failing entry that settles first, not that of the lowest index; entries
    that settle later, or never, do not matter. *)
Theorem batch_first_failure_wins
    (transactions : list Transaction) (answers : nat -> list input)
    (pre post : list nat) (k : nat) (tx : Transaction) (e : thrown) :
  transactions !! k = Some tx ->
  sendTransaction' tx payer additionalSigners timeout confirmLevel (answers k)
    = Some (Thrown e) ->
  (forall i tx' e', i ∈ pre -> transactions !! i = Some tx' ->
     sendTransaction' tx' payer additionalSigners timeout confirmLevel (answers i)
       <> Some (Thrown e')) ->
  sendTransactions' transactions payer additionalSigners timeout confirmLevel
    answers (pre ++ k :: post) = Some (Thrown e).
Proof.
  intros Hk He Hpre. unfold sendTransactions.
  apply promise_all_first_rejection.
  - unfold submissions. now rewrite list_lookup_imap, Hk, <- He.
  - intros i e' Hi H. unfold submissions in H. rewrite list_lookup_imap in H.
    destruct (transactions !! i) as [tx'|] eqn:Hi'; simpl in H; [|discriminate].
    inversion H as [H']. now apply (Hpre i tx' e' Hi Hi').
Qed.

(** X12.  A submission that never settles keeps the whole batch pending
    as long as no entry fails, even when every other entry has returned
    its identifier. *)
Theorem batch_waits_for_every_entry
    (transactions : list Transaction) (answers : nat -> list input)
    (order : list nat) (k : nat) (tx : Transaction) :
  transactions !! k = Some tx ->
  sendTransaction' tx payer additionalSigners timeout confirmLevel (answers k) = None ->
  (forall i tx' e', transactions !! i = Some tx' ->
     sendTransaction' tx' payer additionalSigners timeout confirmLevel (answers i)
       <> Some (Thrown e')) ->
  sendTransactions' transactions payer additionalSigners timeout confirmLevel
    answers order = None.
Proof.
  intros Hk Hpending Hnone. unfold sendTransactions.
  apply (promise_all_pending _ order k).
  - unfold submissions. now rewrite list_lookup_imap, Hk, <- Hpending.
  - intros i e' H. unfold submissions in H. rewrite list_lookup_imap in H.
    destruct (transactions !! i) as [tx'|] eqn:Hi'; simpl in H; [|discriminate].
    inversion H as [H']. now apply (Hnone i tx' e' Hi').
Qed.

(** X13.  The result of a batch is final: once [sendTransactions] has
    returned or thrown, submissions that settle afterwards do not change
    it. *)
Theorem batch_result_is_final
    (transactions : list Transaction) (answers : nat -> list input)
    (order more : list nat) (c : completion (list TransactionSignature)) :
  sendTransactions' transactions payer additionalSigners timeout confirmLevel
    answers order = Some c ->
  sendTransactions' transactions payer additionalSigners timeout confirmLevel
    answers (order ++ more) = Some c.
Proof.
  unfold sendTransactions, promise_all. intros H.
  rewrite fold_left_app. now apply settled_events.
Qed.

(** X14.  An empty batch returns the empty list at once: no submission is
    started and nothing has to settle. *)
Theorem empty_batch_returns_at_once (answers : nat -> list input) (order : list nat) :
  submissions' [] payer additionalSigners timeout confirmLevel answers = []
  /\ sendTransactions' [] payer additionalSigners timeout confirmLevel answers order
     = Some (Returned []).
Proof.
  split; [reflexivity|]. unfold sendTransactions, promise_all.
  now apply settled_events.
Qed.

End BatchFurther.

Lemma batch_returned_means_all_confirmed_witness :
  length ["sig"; "sig"] = length ["a"; "b"]
  /\ forall i tx, ["a"; "b"] !! i = Some tx ->
       exists id, ["sig"; "sig"] !! i = Some id
         /\ sendTransaction sample_sign tx "payer" [] 30000 "confirmed"
              ((fun _ => confirmed_inputs) i) = Some (Returned id).
Proof.
  exact (batch_returned_means_all_confirmed sample_sign "payer" [] 30000 "confirmed"
           ["a"; "b"] (fun _ => confirmed_inputs) [1; 0] ["sig"; "sig"] eq_refl).
Defined.

Lemma batch_first_failure_wins_witness :
  mixed_sendTransactions ([1] ++ 2 :: [0]) = Some (Thrown (ErrorObj "Transaction failed"))
  /\ mixed_sendTransactions ([] ++ 0 :: [1; 2])
     = Some (Thrown (ErrorObj "Timed out awaiting confirmation on transaction")).
Proof.
  split.
  - apply (batch_first_failure_wins sample_sign "payer" [] 30000 "confirmed"
             sample_batch mixed_answers [1] [0] 2 "c" (ErrorObj "Transaction failed")
             eq_refl eq_refl).
    intros i tx' e' Hi Htx. apply list_elem_of_In in Hi. simpl in Hi.
    destruct Hi as [<-|[]]. simpl in Htx. inversion Htx; subst. discriminate.
  - apply (batch_first_failure_wins sample_sign "payer" [] 30000 "confirmed"
             sample_batch mixed_answers [] [1; 2] 0 "a"
             (ErrorObj "Timed out awaiting confirmation on transaction")
             eq_refl eq_refl).
    intros i tx' e' Hi. inversion Hi.
Defined.

Lemma batch_waits_for_every_entry_witness :
  sendTransactions sample_sign sample_batch "payer" [] 30000 "confirmed"
    stuck_answers [0; 1; 2] = None.
Proof.
  apply (batch_waits_for_every_entry sample_sign "payer" [] 30000 "confirmed"
           sample_batch stuck_answers [0; 1; 2] 1 "b" eq_refl eq_refl).
  intros i tx' e' Htx.
  destruct i as [|[|[|i]]]; simpl in Htx; inversion Htx; subst; discriminate.
Defined.

Lemma batch_result_is_final_witness :
  mixed_sendTransactions ([2] ++ [0; 1]) = Some (Thrown (ErrorObj "Transaction failed")).
Proof.
  exact (batch_result_is_final sample_sign "payer" [] 30000 "confirmed"
           sample_batch mixed_answers [2] [0; 1]
           (Thrown (ErrorObj "Transaction failed")) eq_refl).
Defined.

(** ** Account readers, further *)

Lemma map_throwing_all {A B : Type} (f : A -> completion B) (xs : list A) :
  (forall x, x ∈ xs -> exists y, f x = Returned y) ->
  exists ys,
    map_throwing f xs = Returned ys
    /\ length ys = length xs
    /\ forall i x, xs !! i = Some x -> exists y, f x = Returned y /\ ys !! i = Some y.
Proof.
  induction xs as [|a rest IH]; intros H.
  - exists []. repeat split. intros i x Hi. discriminate.
  - destruct (H a ltac:(left)) as [b Hb].
    destruct IH as (bs & Hbs & Hlen & Hidx); [intros x Hx; apply H; now right|].
    exists (b :: bs). simpl. rewrite Hb, Hbs. simpl.
    split; [reflexivity|]. split; [now rewrite Hlen|].
    intros [|i] x Hi; simpl in Hi.
    + inversion Hi; subst. eauto.
    + now apply Hidx.
Qed.

Lemma map_throwing_first_failure {A B : Type} (f : A -> completion B) (xs : list A)
    (k : nat) (x : A) (e : thrown) :
  xs !! k = Some x -> f x = Thrown e ->
  (forall i x', i < k -> xs !! i = Some x' -> exists y, f x' = Returned y) ->
  map_throwing f xs = Thrown e.
Proof.
  revert k. induction xs as [|a rest IH]; intros k Hk He Hbefore; [discriminate|].
  destruct k as [|k]; simpl in *.
  - inversion Hk; subst. now rewrite He.
  - destruct (Hbefore 0 a ltac:(lia) eq_refl) as [b Hb]. rewrite Hb. simpl.
    rewrite (IH k Hk He); [reflexivity|].
    intros i x' Hi Hx'. apply (Hbefore (S i)); [lia|exact Hx'].
Qed.

Section AccountFurther.

Context {Decoded RootBank : Type}.
Variable RootBankLayout_decode : option Buffer -> completion Decoded.
Variable new_RootBank : Decoded -> RootBank.
Variable getAccountInfo : PublicKey -> completion (option AccountInfo).

Local Notation parse := (parse_root_bank RootBankLayout_decode new_RootBank).
Local Notation loadRootBanks' :=
  (loadRootBanks RootBankLayout_decode new_RootBank getAccountInfo).

(** The accounts handed to the map are the lookups' values, index by
    index. *)
Lemma accounts_of_lookups (rootBanks : list PublicKey)
    (accounts : list (option AccountInfo)) :
  List.map (fun pk => Some (getAccountInfo pk)) rootBanks
  = (fun a => Some (Returned a)) <$> accounts ->
  length accounts = length rootBanks
  /\ forall i a, accounts !! i = Some a ->
       exists pk, rootBanks !! i = Some pk /\ getAccountInfo pk = Returned a.
Proof.
  intros Heq. split.
  - apply (f_equal length) in Heq. rewrite length_map, length_fmap in Heq. lia.
  - intros i a Ha. apply (f_equal (fun l => l !! i)) in Heq.
    change (List.map ?f ?l) with (f <$> l) in Heq.
    rewrite !list_lookup_fmap, Ha in Heq. simpl in Heq.
    destruct (rootBanks !! i) as [pk|]; simpl in Heq; [|discriminate].
    exists pk. split; [reflexivity|]. congruence.
Qed.

(** X15.  When every requested account exists and decodes, [loadRootBanks]
    returns one root bank per key, in the order of the keys, whatever the
    order in which the lookups are answered. *)
Theorem loadRootBanks_returns_in_key_order (rootBanks : list PublicKey)
    (order : list nat) :
  (forall i, i < length rootBanks -> i ∈ order) ->
  (forall pk, pk ∈ rootBanks ->
     exists acc d, getAccountInfo pk = Returned (Some acc)
                   /\ RootBankLayout_decode (Some (data acc)) = Returned d) ->
  exists banks,
    loadRootBanks' rootBanks order = Some (Returned banks)
    /\ length banks = length rootBanks
    /\ forall i pk, rootBanks !! i = Some pk ->
         exists acc d,
           getAccountInfo pk = Returned (Some acc)
           /\ RootBankLayout_decode (Some (data acc)) = Returned d
           /\ banks !! i = Some (new_RootBank d).
Proof.
  intros Hcover Hall.
  destruct (lookups_returned getAccountInfo rootBanks) as (accounts & Heq & Hsrc).
  { intros pk Hpk. destruct (Hall pk Hpk) as (acc & d & H & _). eauto. }
  destruct (accounts_of_lookups rootBanks accounts Heq) as [Hlen Hidx].
  destruct (map_throwing_all parse accounts) as (banks & Hbanks & Hblen & Hbidx).
  { intros a Ha. destruct (Hsrc a Ha) as (pk & Hpk & Hget).
    destruct (Hall pk Hpk) as (acc & d & Hacc & Hd).
    assert (a = Some acc) as -> by congruence.
    exists (new_RootBank d). unfold parse_root_bank. simpl. now rewrite Hd. }
  exists banks. split; [|split].
  - unfold loadRootBanks. rewrite Heq, promise_all_fulfilled; [now rewrite Hbanks|].
    intros i Hi. apply Hcover. lia.
  - lia.
  - intros i pk Hi.
    destruct (Hall pk) as (acc & d & Hacc & Hd);
      [now apply list_elem_of_lookup_2 in Hi|].
    exists acc, d. split; [exact Hacc|]. split; [exact Hd|].
    destruct (lookup_lt_is_Some_2 accounts i) as [a Ha].
    { rewrite Hlen. now apply lookup_lt_Some in Hi. }
    destruct (Hidx i a Ha) as (pk' & Hpk' & Hget).
    assert (pk' = pk) as -> by congruence.
    assert (a = Some acc) as -> by congruence.
    destruct (Hbidx i (Some acc) Ha) as (y & Hy & Hlook).
    unfold parse_root_bank in Hy. simpl in Hy. rewrite Hd in Hy. simpl in Hy.
    now inversion Hy; subst.
Qed.

(** X16.  A lookup that fails makes [loadRootBanks] fail with the lookup's
    error when it is the first failure to be answered; no account is
    decoded in that case. *)
Theorem loadRootBanks_lookup_failure (rootBanks : list PublicKey)
    (pre post : list nat) (k : nat) (pk : PublicKey) (e : thrown) :
  rootBanks !! k = Some pk ->
  getAccountInfo pk = Thrown e ->
  (forall i pk' e', i ∈ pre -> rootBanks !! i = Some pk' ->
     getAccountInfo pk' <> Thrown e') ->
  loadRootBanks' rootBanks (pre ++ k :: post) = Some (Thrown e).
Proof.
  intros Hk He Hpre. unfold loadRootBanks.
  rewrite (promise_all_first_rejection _ pre post k e); [reflexivity| |].
  - change (List.map ?f ?l) with (f <$> l). now rewrite list_lookup_fmap, Hk, <- He.
  - intros i e' Hi H. change (List.map ?f ?l) with (f <$> l) in H.
    rewrite list_lookup_fmap in H.
    destruct (rootBanks !! i) as [pk'|] eqn:Hi'; simpl in H; [|discriminate].
    inversion H as [H']. now apply (Hpre i pk' e' Hi Hi').
Qed.

(** X17.  When every lookup is answered, the accounts are processed in the
    order of the keys: the call fails with the error of the first key, in
    that order, whose account is missing or does not decode, whatever the
    order in which the lookups were answered. *)
Theorem loadRootBanks_first_bad_account (rootBanks : list PublicKey)
    (order : list nat) (k : nat) (pk : PublicKey) (a : option AccountInfo)
    (e : thrown) :
  (forall i, i < length rootBanks -> i ∈ order) ->
  (forall pk', pk' ∈ rootBanks -> exists a', getAccountInfo pk' = Returned a') ->
  rootBanks !! k = Some pk ->
  getAccountInfo pk = Returned a ->
  parse a = Thrown e ->
  (forall i pk' a', i < k -> rootBanks !! i = Some pk' ->
     getAccountInfo pk' = Returned a' -> exists bank, parse a' = Returned bank) ->
  loadRootBanks' rootBanks order = Some (Thrown e).
Proof.
  intros Hcover Hall Hk Hget He Hbefore.
  destruct (lookups_returned getAccountInfo rootBanks Hall) as (accounts & Heq & _).
  destruct (accounts_of_lookups rootBanks accounts Heq) as [Hlen Hidx].
  unfold loadRootBanks. rewrite Heq, promise_all_fulfilled.
  2:{ intros i Hi. apply Hcover. lia. }
  f_equal.
  destruct (lookup_lt_is_Some_2 accounts k) as [a0 Ha0].
  { rewrite Hlen. now apply lookup_lt_Some in Hk. }
  destruct (Hidx k a0 Ha0) as (pk0 & Hpk0 & Hget0).
  assert (pk0 = pk) as -> by congruence.
  assert (a0 = a) as -> by congruence.
  apply (map_throwing_first_failure parse accounts k a e Ha0 He).
  intros i a' Hi Ha'.
  destruct (Hidx i a' Ha') as (pk' & Hpk' & Hget').
  now apply (Hbefore i pk' a' Hi Hpk').
Qed.

End AccountFurther.

Lemma loadRootBanks_returns_in_key_order_witness :
  exists banks,
    sample_loadRootBanks ["bankA"; "bankA"] [1; 0] = Some (Returned banks)
    /\ length banks = 2.
Proof.
  destruct (loadRootBanks_returns_in_key_order sample_decode id sample_getAccountInfo
              ["bankA"; "bankA"] [1; 0]) as (banks & H & Hlen & _).
  - intros i Hi. apply list_elem_of_In. simpl in *.
    destruct i as [|[|i]]; [auto|auto|lia].
  - intros pk Hpk. apply list_elem_of_In in Hpk. simpl in Hpk.
    exists {| data := "A" |}, "A".
    destruct Hpk as [<-|[<-|[]]]; split; reflexivity.
  - exists banks. split; [exact H|exact Hlen].
Defined.

Lemma loadRootBanks_lookup_failure_witness :
  loadRootBanks sample_decode id failing_getAccountInfo ["bankA"; "down"; "missing"]
    ([0] ++ 1 :: [2])
  = Some (Thrown (ErrorObj "fetch failed")).
Proof.
  apply (loadRootBanks_lookup_failure sample_decode id failing_getAccountInfo
           ["bankA"; "down"; "missing"] [0] [2] 1 "down" (ErrorObj "fetch failed")
           eq_refl eq_refl).
  intros i pk' e' Hi Hpk'. apply list_elem_of_In in Hi. simpl in Hi.
  destruct Hi as [<-|[]]. simpl in Hpk'. inversion Hpk'; subst. discriminate.
Defined.

Lemma loadRootBanks_first_bad_account_witness :
  sample_loadRootBanks ["bankA"; "missing"; "bankA"] [2; 1; 0]
  = Some (Thrown (TypeErrorObj "data")).
Proof.
  apply (loadRootBanks_first_bad_account sample_decode id sample_getAccountInfo
           ["bankA"; "missing"; "bankA"] [2; 1; 0] 1 "missing" None
           (TypeErrorObj "data")).
  - intros i Hi. apply list_elem_of_In. simpl in *.
    destruct i as [|[|[|i]]]; [auto|auto|auto|lia].
  - intros pk' Hpk'. apply list_elem_of_In in Hpk'. simpl in Hpk'.
    destruct Hpk' as [<-|[<-|[<-|[]]]]; eauto.
  - reflexivity.
  - reflexivity.
  - reflexivity.
  - intros i pk' a' Hi Hpk' Hget. destruct i as [|i]; [|lia].
    simpl in Hpk'. inversion Hpk'; subst.
    unfold sample_getAccountInfo in Hget. simpl in Hget. inversion Hget; subst.
    exists "A". reflexivity.
Defined.

(** ** Methods that submit one instruction *)

Section MethodFacts.

Context {Account MerpsGroup MerpsAccount Number BN : Type}.
Variable sign_and_serialize :
  InstructionList -> Blockhash -> Account -> list Account -> completion RawTransaction.
Variable publicKey : Account -> PublicKey.
Variable group_publicKey : MerpsGroup -> PublicKey.
Variable tokens : MerpsGroup -> list TokenInfo.
Variable getRootBankIndex : MerpsGroup -> PublicKey -> Z.
Variable account_publicKey : MerpsAccount -> PublicKey.
Variable uiToNative : Number -> Z -> completion BN.
Variable encodeMerpsInstruction : MerpsInstruction BN -> completion Buffer.
Variable makeWithdrawInstruction :
  PublicKey -> MerpsGroup -> MerpsAccount -> PublicKey -> PublicKey -> PublicKey ->
  PublicKey -> PublicKey -> BN -> completion Instruction.t.
Variable this_programId : PublicKey.

(** X18.  When the group has no token at the index it reports for the root
    bank (for instance a negative index), [deposit] and [withdraw] fail
    with the failed read of [decimals] before anything is converted,
    encoded or sent. *)
Theorem unknown_root_bank_fails_early (merpsGroup : MerpsGroup)
    (merpsAccount : MerpsAccount) (owner : Account)
    (rootBank nodeBank vault tokenAcc TOKEN_PROGRAM_ID : PublicKey)
    (quantity : Number) (inputs : list input) :
  array_get (tokens merpsGroup) (getRootBankIndex merpsGroup rootBank) = None ->
  deposit sign_and_serialize publicKey group_publicKey tokens getRootBankIndex
    account_publicKey uiToNative encodeMerpsInstruction this_programId
    merpsGroup merpsAccount owner rootBank nodeBank vault tokenAcc TOKEN_PROGRAM_ID
    quantity inputs
  = {| ended := Some (Thrown (TypeErrorObj "decimals")); issued := [] |}
  /\ withdraw sign_and_serialize publicKey tokens getRootBankIndex uiToNative
       makeWithdrawInstruction this_programId
       merpsGroup merpsAccount owner rootBank nodeBank vault tokenAcc quantity inputs
     = {| ended := Some (Thrown (TypeErrorObj "decimals")); issued := [] |}.
Proof.
  intros H. unfold deposit, withdraw, token_decimals. rewrite H. split; reflexivity.
Qed.

(** X19.  [cacheRootBanks] names the group, then the cache, then the root
    banks in the order given: one account per root bank, none of them a
    signer, the cache the only writable one.  With no root bank the
    instruction has just the group and the cache. *)
Theorem cacheRootBanks_accounts (merpsGroup merpsCache : PublicKey)
    (rootBanks : list PublicKey) :
  List.map pubkey (cacheRootBanks_keys merpsGroup merpsCache rootBanks)
  = merpsGroup :: merpsCache :: rootBanks
  /\ length (cacheRootBanks_keys merpsGroup merpsCache rootBanks)
     = 2 + length rootBanks
  /\ List.filter isSigner (cacheRootBanks_keys merpsGroup merpsCache rootBanks) = []
  /\ List.filter isWritable (cacheRootBanks_keys merpsGroup merpsCache rootBanks)
     = [{| isSigner := false; isWritable := true; pubkey := merpsCache |}].
Proof.
  unfold cacheRootBanks_keys. simpl.
  rewrite List.map_map, List.map_id, length_map.
  repeat split; f_equal.
  all: induction rootBanks as [|pk rest IH]; simpl; auto.
Qed.

End MethodFacts.

Lemma unknown_root_bank_fails_early_witness :
  sample_deposit "rootB" sample_start
  = {| ended := Some (Thrown (TypeErrorObj "decimals")); issued := [] |}
  /\ sample_withdraw "rootB" sample_start
     = {| ended := Some (Thrown (TypeErrorObj "decimals")); issued := [] |}.
Proof.
  split.
  - exact (proj1 (unknown_root_bank_fails_early (fun tx bh _ _ => Returned bh) id
                    (fun _ => "group") id sample_index (fun _ : unit => "account")
                    (fun q d => Returned (q * 10 ^ d)%Z) (fun _ => Returned "data")
                    (fun _ _ _ _ _ _ _ _ _ =>
                       Returned {| Instruction.keys := []; Instruction.data := "w";
                                   Instruction.programId := "program" |})
                    "program" [{| decimals := 6 |}] tt "owner" "rootB" "nodeA"
                    "vaultA" "tokenAcc" "tokenProgram" 5%Z sample_start eq_refl)).
  - exact (proj2 (unknown_root_bank_fails_early (fun tx bh _ _ => Returned bh) id
                    (fun _ => "group") id sample_index (fun _ : unit => "account")
                    (fun q d => Returned (q * 10 ^ d)%Z) (fun _ => Returned "data")
                    (fun _ _ _ _ _ _ _ _ _ =>
                       Returned {| Instruction.keys := []; Instruction.data := "w";
                                   Instruction.programId := "program" |})
                    "program" [{| decimals := 6 |}] tt "owner" "rootB" "nodeA"
                    "vaultA" "tokenAcc" "tokenProgram" 5%Z sample_start eq_refl)).
Defined.

(** A known root bank is deposited to: the blockhash is asked for. *)
Example deposit_known_root_bank :
  issued (sample_deposit "rootA" []) = [GetRecentBlockhash].
Proof. reflexivity. Qed.
